(** * Ultimate tic-tac-toe server: rules engine and room handlers

    A shallow embedding of [src/index.ts].

    - Arrays are lists.  Array indices are integers ([Z]): the handlers
      take them from the request as unchecked numbers, so they may be
      negative or too large.
    - The two ways an array access can leave the typed world are explicit
      results: reading a property of [undefined] throws, and writing past
      the end of an array would grow it.
    - The module-level [games] map is a [gmap]; a handler is a function on
      the server state that also records what it emits.  A game object is
      only reached through the map, and [getDefaultBoard] builds fresh
      arrays, so no two games share a board.
    - The room code of [create-room] is a parameter (the source draws it
      at random); the transport and the [disconnect] handler are left
      out. *)

From stdpp Require Import base tactics option list strings gmap fin_maps.
From Stdlib Require Import ZArith Lia.

Open Scope Z_scope.

(** ** Results of partial operations *)

(** [TypeError]: JavaScript throws (a property is read from, or written
    to, [undefined]).  [OutOfShape]: JavaScript would not throw but would
    grow an array past its length (or add a non-index property), which
    leaves the type [Sign[][]]. *)
Inductive fault : Type :=
  | TypeError
  | OutOfShape.

Inductive exc (A : Type) : Type :=
  | Ret (a : A)
  | Fault (f : fault).
Arguments Ret {A} a.
Arguments Fault {A} f.

Global Instance exc_ret : MRet exc := fun A a => Ret a.
Global Instance exc_bind : MBind exc := fun A B k m =>
  match m with
  | Ret a => k a
  | Fault f => Fault f
  end.

(** ** Data model *)

(** [type Sign = 'X' | 'O' | ''] *)
Inductive Sign : Type :=
  | X
  | O
  | Empty.

Global Instance Sign_eq_dec : EqDecision Sign.
Proof. solve_decision. Defined.

(** [sign === other] *)
Definition Sign_eqb (a b : Sign) : bool := bool_decide (a = b).

(** [type SmallBoard = Sign[][]], [type Board = Sign[][][]] *)
Abbreviation SmallBoard := (list (list Sign)).
Abbreviation Board := (list SmallBoard).

(** [type CurrentBoardIndex = number | null] *)
Abbreviation CurrentBoardIndex := (option Z).

(** [type Position = { smallBoard: number; row: number; cell: number }] *)
Record Position : Type := mkPosition {
  smallBoard : Z;
  row : Z;
  cell : Z
}.

(** [type Player = { id: string; sign: Sign }] *)
Record Player : Type := mkPlayer {
  player_id : string;
  sign : Sign
}.

Record Game : Type := mkGame {
  players : list Player;
  board : Board;
  currentPlayer : Sign;
  currentBoard : CurrentBoardIndex;
  gameOver : bool;
  winner : option Sign;
  isTie : bool
}.

(** ** Array access *)

(** [a[i]] as an rvalue: [None] is [undefined]. *)
Definition lookupZ {A : Type} (l : list A) (i : Z) : option A :=
  if decide (0 ≤ i) then l !! Z.to_nat i else None.

(** [a[i]] when a property of the element is used next. *)
Definition index {A : Type} (l : list A) (i : Z) : exc A :=
  match lookupZ l i with
  | Some a => Ret a
  | None => Fault TypeError
  end.

(** [a[i] = v] on an existing array. *)
Definition setIndex {A : Type} (l : list A) (i : Z) (v : A) : exc (list A) :=
  if decide (0 ≤ i < Z.of_nat (length l))
  then Ret (<[Z.to_nat i := v]> l)
  else Fault OutOfShape.

(** [b[r][c] = v]: the row object is updated in place. *)
Definition setCell (b : SmallBoard) (r c : Z) (v : Sign) : exc SmallBoard :=
  line ← index b r;
  line' ← setIndex line c v;
  Ret (<[Z.to_nat r := line']> b).

(** [board[s][r][c] = v] *)
Definition setBoardCell (bd : Board) (s r c : Z) (v : Sign) : exc Board :=
  small ← index bd s;
  small' ← setCell small r c v;
  Ret (<[Z.to_nat s := small']> bd).

(** [b[r][c] === v]; comparing [undefined] gives [false]. *)
Definition cellIs (b : SmallBoard) (r c : Z) (v : Sign) : exc bool :=
  line ← index b r;
  Ret (match lookupZ line c with
       | Some s => Sign_eqb s v
       | None => false
       end).

(** ** Board model *)

Definition boardSize : nat := 9.
Definition boardRowQuantity : Z := 3.

Definition getEmptyCellIndexes (board : SmallBoard) : list Z :=
  mjoin (imap (fun (index : nat) (row : list Sign) =>
    omap (fun i : CurrentBoardIndex => i)
      (imap (fun (rowIndex : nat) (sign : Sign) =>
               if Sign_eqb sign Empty
               then Some (Z.of_nat rowIndex + boardRowQuantity * Z.of_nat index)
               else None) row)) board).

Definition getEmptySmallBoard : SmallBoard :=
  [ [Empty; Empty; Empty];
    [Empty; Empty; Empty];
    [Empty; Empty; Empty] ].

(** The [for] loop of [getDefaultBoard]; [n] counts the iterations left.
    Every iteration calls [getEmptySmallBoard], so the nine small boards
    are nine distinct arrays. *)
Fixpoint getDefaultBoard_loop (n : nat) (board : Board) : Board :=
  match n with
  | 0%nat => board
  | S n' => getDefaultBoard_loop n' (board ++ [getEmptySmallBoard])
  end.

Definition getDefaultBoard : Board := getDefaultBoard_loop boardSize [].

(** [row.every(cell => cell === player)] *)
Definition everyCell (line : list Sign) (player : Sign) : bool :=
  forallb (fun cell => Sign_eqb cell player) line.

(** [board.every(row => row[i] === player)] *)
Definition everyRowAt (board : SmallBoard) (i : Z) (player : Sign) : bool :=
  forallb (fun line => match lookupZ line i with
                       | Some s => Sign_eqb s player
                       | None => false
                       end) board.

(** [!a], [a && b] and [a || b] on computations that may throw. *)
Definition notE (a : exc bool) : exc bool :=
  x ← a; Ret (negb x).
Definition andE (a b : exc bool) : exc bool :=
  x ← a; if x : bool then b else Ret false.
Definition orE (a b : exc bool) : exc bool :=
  x ← a; if x : bool then Ret true else b.

(** The two diagonals, after the loop found no row and no column. *)
Definition diagonals (board : SmallBoard) (player : Sign) : exc bool :=
  orE (andE (cellIs board 0 2 player)
            (andE (cellIs board 1 1 player) (cellIs board 2 0 player)))
      (andE (cellIs board 0 0 player)
            (andE (cellIs board 1 1 player) (cellIs board 2 2 player))).

(** The loop [for (let i = 0; i < boardRowQuantity; i++)] of the win
    checks, over the indices still to visit. *)
Fixpoint checkLines (board : SmallBoard) (player : Sign) (todo : list Z)
  : exc bool :=
  match todo with
  | [] => diagonals board player
  | i :: todo' =>
      line ← index board i;
      if everyCell line player then Ret true
      else if everyRowAt board i player then Ret true
      else checkLines board player todo'
  end.

Definition checkSmallBoardWin (board : SmallBoard) (player : Sign) : exc bool :=
  checkLines board player [0; 1; 2].

Definition checkWin (winBoard : SmallBoard) (player : Sign) : exc bool :=
  checkLines winBoard player [0; 1; 2].

(** [Number(cell === '')] *)
Definition Number (b : bool) : Z := if b then 1 else 0.

Definition canMoveToSmallBoard (board : SmallBoard) : exc bool :=
  let emptyCells :=
    foldl (fun acc line =>
             acc + foldl (fun acc cell => acc + Number (Sign_eqb cell Empty))
                         0 line)
          0 board in
  if decide (emptyCells > 0)
  then andE (notE (checkSmallBoardWin board X))
            (notE (checkSmallBoardWin board O))
  else Ret false.

Definition getNextBoardIndex (board : Board) (row col : Z)
  : exc CurrentBoardIndex :=
  let index' := row * 3 + col in
  small ← index board index';
  decided ← orE (checkSmallBoardWin small X)
                (orE (checkSmallBoardWin small O)
                     (Ret (bool_decide
                             (length (getEmptyCellIndexes small) = 0%nat))));
  if decided : bool then Ret None else Ret (Some index').

(** ** Move validator *)

Definition isValidMove (smallBoardIndex row col : Z) (gameOver : bool)
    (board : Board) (currentBoard : CurrentBoardIndex)
    (currentPlayer player : Sign) : exc bool :=
  small ← index board smallBoardIndex;
  freeCell ← cellIs small row col Empty;
  let validBoardIndex :=
    match currentBoard with
    | None => true
    | Some active => bool_decide (smallBoardIndex = active)
    end in
  validBoard ← canMoveToSmallBoard small;
  let validPlayer := Sign_eqb currentPlayer player in
  Ret (freeCell && validBoardIndex && validBoard && validPlayer
       && negb gameOver).

(** ** Tie and winner-board *)

(** Inner loop of [checkTie] over the columns [js] of row [i]; [next] is
    what the outer loop does once the row is exhausted. *)
Fixpoint checkTie_cols (winnerBoard : SmallBoard) (i : Z) (js : list Z)
    (next : exc bool) : exc bool :=
  match js with
  | [] => next
  | j :: js' =>
      found ← andE (cellIs winnerBoard i j Empty)
                   (Ret (bool_decide
                           (i * 3 + j ∈ getEmptyCellIndexes winnerBoard)));
      if found : bool then Ret false
      else checkTie_cols winnerBoard i js' next
  end.

Fixpoint checkTie_rows (winnerBoard : SmallBoard) (rows : list Z)
  : exc bool :=
  match rows with
  | [] => Ret true
  | i :: rows' =>
      checkTie_cols winnerBoard i [0; 1; 2] (checkTie_rows winnerBoard rows')
  end.

Definition checkTie (winnerBoard : SmallBoard) : exc bool :=
  checkTie_rows winnerBoard [0; 1; 2].

(** The loop of [getWinnerBoard]: [rest] are the small boards from index
    [i] on, [winBoard] the grid filled so far. *)
Fixpoint getWinnerBoard_loop (rest : list SmallBoard) (i : Z)
    (winBoard : SmallBoard) : exc SmallBoard :=
  match rest with
  | [] => Ret winBoard
  | small :: rest' =>
      let x := i `mod` 3 in
      let y := i `div` 3 in
      wonX ← checkSmallBoardWin small X;
      winBoard' ←
        (if wonX : bool then setCell winBoard y x X
         else
           wonO ← checkSmallBoardWin small O;
           if wonO : bool then setCell winBoard y x O else Ret winBoard);
      getWinnerBoard_loop rest' (i + 1) winBoard'
  end.

Definition getWinnerBoard (board : Board) : exc SmallBoard :=
  getWinnerBoard_loop board 0 getEmptySmallBoard.

(** ** The server: room registry and outgoing messages *)

Inductive Target : Type :=
  | ToSocket (socket : string)
  | ToRoom (roomCode : string).

Inductive Message : Type :=
  | error (text : string)
  | room_created (roomCode : string)
  | start_game (roomCode : string) (board : Board) (currentPlayer : Sign)
      (currentBoard : CurrentBoardIndex) (player : Sign)
  | move_made (roomCode : string) (board : Board) (currentPlayer : Sign)
      (currentBoard : CurrentBoardIndex) (winner : option Sign)
      (isTie gameOver : bool)
  | game_restarted (roomCode : string) (board : Board) (currentPlayer : Sign)
      (currentBoard : CurrentBoardIndex) (gameOver : bool)
      (winner : option Sign) (isTie : bool).

(** [games] is the module-level [Map]; [outbox] records every [emit] in
    order. *)
Record Server : Type := mkServer {
  games : gmap string Game;
  outbox : list (Target * Message)
}.

(** Handlers run on the server state and may throw; a throw keeps the
    state as it was at that point. *)
Definition M (A : Type) : Type := Server → exc A * Server.

Global Instance M_ret : MRet M := fun A a s => (Ret a, s).
Global Instance M_bind : MBind M := fun A B k m s =>
  match m s with
  | (Ret a, s') => k a s'
  | (Fault f, s') => (Fault f, s')
  end.

Definition lift {A : Type} (e : exc A) : M A := fun s => (e, s).

Definition getGame (roomCode : string) : M (option Game) :=
  fun s => (Ret (games s !! roomCode), s).

Definition setGame (roomCode : string) (game : Game) : M unit :=
  fun s => (Ret (), mkServer (<[roomCode := game]> (games s)) (outbox s)).

Definition emit (to : Target) (msg : Message) : M unit :=
  fun s => (Ret (), mkServer (games s) (outbox s ++ [(to, msg)])).

(** Field assignments [game.f = v] *)
Definition set_players (g : Game) (v : list Player) : Game :=
  mkGame v (board g) (currentPlayer g) (currentBoard g) (gameOver g)
    (winner g) (isTie g).
Definition set_board (g : Game) (v : Board) : Game :=
  mkGame (players g) v (currentPlayer g) (currentBoard g) (gameOver g)
    (winner g) (isTie g).
Definition set_currentPlayer (g : Game) (v : Sign) : Game :=
  mkGame (players g) (board g) v (currentBoard g) (gameOver g)
    (winner g) (isTie g).
Definition set_currentBoard (g : Game) (v : CurrentBoardIndex) : Game :=
  mkGame (players g) (board g) (currentPlayer g) v (gameOver g)
    (winner g) (isTie g).
Definition set_gameOver (g : Game) (v : bool) : Game :=
  mkGame (players g) (board g) (currentPlayer g) (currentBoard g) v
    (winner g) (isTie g).
Definition set_winner (g : Game) (v : option Sign) : Game :=
  mkGame (players g) (board g) (currentPlayer g) (currentBoard g)
    (gameOver g) v (isTie g).
Definition set_isTie (g : Game) (v : bool) : Game :=
  mkGame (players g) (board g) (currentPlayer g) (currentBoard g)
    (gameOver g) (winner g) v.

(** The game object lives in the map: an assignment to one of its fields
    is visible there at once. *)
Definition assign (roomCode : string) (game : Game) : M Game :=
  setGame roomCode game;; mret game.

(** ** Handlers *)

(** [socket.on('create-room')]; [roomCode] is the value [generateId(5)]
    returned. *)
Definition create_room (socket roomCode : string) : M unit :=
  setGame roomCode (mkGame [] getDefaultBoard X None false None false);;
  game ← getGame roomCode;
  match game with
  | Some game =>
      setGame roomCode
        (set_players game (players game ++ [mkPlayer socket X]))
  | None => mret ()
  end;;
  emit (ToSocket socket) (room_created roomCode).

(** [socket.on('join-room')] *)
Definition join_room (socket roomCode : string) : M unit :=
  game ← getGame roomCode;
  match game with
  | None => emit (ToSocket socket) (error "Room not found!")
  | Some game =>
      if decide (2 ≤ length (players game))%nat
      then emit (ToSocket socket) (error "Room is full!")
      else
        game ← assign roomCode
                 (set_players game (players game ++ [mkPlayer socket O]));
        playerX ← lift (index (players game) 0);
        emit (ToSocket (player_id playerX))
             (start_game roomCode (board game) (currentPlayer game)
                         (currentBoard game) (sign playerX));;
        playerO ← lift (index (players game) 1);
        emit (ToSocket (player_id playerO))
             (start_game roomCode (board game) (currentPlayer game)
                         (currentBoard game) (sign playerO))
  end.

(** [game.players.find((player) => player.id === socket.id)?.sign] *)
Definition seatSign (game : Game) (socket : string) : option Sign :=
  sign <$> List.find (fun player => bool_decide (player_id player = socket))
                     (players game).

(** [socket.on('make-move')] *)
Definition make_move (socket roomCode : string) (position : Position)
  : M unit :=
  game ← getGame roomCode;
  match game with
  | None => emit (ToSocket socket) (error "Room not found!")
  | Some game =>
      match seatSign game socket with
      | None | Some Empty =>
          emit (ToSocket socket) (error "Player not found!")
      | Some mover =>
          if negb (Sign_eqb mover (currentPlayer game))
          then emit (ToSocket socket) (error "Not your turn!")
          else
            valid ← lift (isValidMove (smallBoard position) (row position)
                            (cell position) (gameOver game) (board game)
                            (currentBoard game) (currentPlayer game) mover);
            if negb valid
            then emit (ToSocket socket) (error "Invalid move!")
            else
              board' ← lift (setBoardCell (board game) (smallBoard position)
                               (row position) (cell position) mover);
              game ← assign roomCode (set_board game board');
              winBoard ← lift (getWinnerBoard (board game));
              won ← lift (checkWin winBoard mover);
              game ←
                (if won : bool
                 then assign roomCode (set_winner game (Some mover))
                 else
                   tied ← lift (checkTie winBoard);
                   if tied : bool
                   then assign roomCode (set_isTie game true)
                   else assign roomCode
                          (set_currentPlayer game
                             (if Sign_eqb mover X then O else X)));
              game ←
                (if decide (winner game ≠ None ∨ isTie game = true)
                 then assign roomCode (set_gameOver game true)
                 else
                   next ← lift (getNextBoardIndex (board game)
                                  (row position) (cell position));
                   assign roomCode (set_currentBoard game next));
              emit (ToRoom roomCode)
                   (move_made roomCode (board game) (currentPlayer game)
                              (currentBoard game) (winner game) (isTie game)
                              (gameOver game))
      end
  end.

(** [socket.on('restart-game')] *)
Definition restart_game (socket roomCode : string) : M unit :=
  game ← getGame roomCode;
  match game with
  | Some game =>
      if gameOver game
      then
        game ← assign roomCode (set_board game getDefaultBoard);
        game ← assign roomCode (set_currentPlayer game X);
        game ← assign roomCode (set_currentBoard game None);
        game ← assign roomCode (set_gameOver game false);
        game ← assign roomCode (set_winner game None);
        game ← assign roomCode (set_isTie game false);
        emit (ToRoom roomCode)
             (game_restarted roomCode (board game) (currentPlayer game)
                             (currentBoard game) (gameOver game)
                             (winner game) (isTie game))
      else mret ()
  | None => mret ()
  end.

(** Requests a client can send.  The [disconnect] handler is left out:
    it only deletes games. *)
Inductive Request : Type :=
  | CreateRoom (roomCode : string)
  | JoinRoom (roomCode : string)
  | MakeMove (roomCode : string) (position : Position)
  | RestartGame (roomCode : string).

Definition handle (socket : string) (req : Request) : M unit :=
  match req with
  | CreateRoom roomCode => create_room socket roomCode
  | JoinRoom roomCode => join_room socket roomCode
  | MakeMove roomCode position => make_move socket roomCode position
  | RestartGame roomCode => restart_game socket roomCode
  end.

(** State after a handler ran, whether it returned or threw. *)
Definition after (socket : string) (req : Request) (s : Server) : Server :=
  snd (handle socket req s).

Definition initial : Server := mkServer ∅ [].

(** States the server can be in: it starts with no room and serves one
    request at a time. *)
Inductive reachable : Server → Prop :=
  | reachable_initial : reachable initial
  | reachable_after socket req s :
      reachable s → reachable (after socket req s).

(** * Specification vocabulary *)

(** The mark at row [r], column [c] of a grid, if there is such a cell. *)
Definition cellAt (b : SmallBoard) (r c : Z) : option Sign :=
  line ← lookupZ b r; lookupZ line c.

(** A 3×3 grid, and a main board of nine of them. *)
Definition wf_small (b : SmallBoard) : Prop :=
  length b = 3%nat ∧ Forall (fun line => length line = 3%nat) b.

Definition wf_board (bd : Board) : Prop :=
  length bd = 9%nat ∧ Forall wf_small bd.

(** The three rows, three columns and two diagonals, as (row, column). *)
Definition lines : list (list (Z * Z)) :=
  [ [(0, 0); (0, 1); (0, 2)];
    [(1, 0); (1, 1); (1, 2)];
    [(2, 0); (2, 1); (2, 2)];
    [(0, 0); (1, 0); (2, 0)];
    [(0, 1); (1, 1); (2, 1)];
    [(0, 2); (1, 2); (2, 2)];
    [(0, 0); (1, 1); (2, 2)];
    [(0, 2); (1, 1); (2, 0)] ].

(** [m] has three in a row in [b]. *)
Definition has_line (b : SmallBoard) (m : Sign) : Prop :=
  ∃ l, l ∈ lines ∧ ∀ rc, rc ∈ l → cellAt b rc.1 rc.2 = Some m.

Definition has_lineb (b : SmallBoard) (m : Sign) : bool :=
  existsb (forallb (fun rc : Z * Z =>
                      bool_decide (cellAt b rc.1 rc.2 = Some m))) lines.

(** Neither mark has three in a row. *)
Definition undecided (b : SmallBoard) : Prop :=
  ¬ has_line b X ∧ ¬ has_line b O.

Definition has_empty (b : SmallBoard) : Prop :=
  ∃ r c, cellAt b r c = Some Empty.

(** [board[s][r][c]], if there is such a cell. *)
Definition targetCell (bd : Board) (s r c : Z) : option Sign :=
  small ← lookupZ bd s; cellAt small r c.

(** What the winner-board shows for one small board. *)
Definition winnerOf (small : SmallBoard) : Sign :=
  if has_lineb small X then X
  else if has_lineb small O then O
  else Empty.

(** ** Example boards *)

Definition wonByX : SmallBoard :=
  [ [X; X; X]; [Empty; Empty; Empty]; [Empty; Empty; Empty] ].

Definition wonByO : SmallBoard :=
  [ [O; O; O]; [Empty; Empty; Empty]; [Empty; Empty; Empty] ].

(** Full, and no line for either mark. *)
Definition drawn : SmallBoard :=
  [ [X; O; X]; [X; O; O]; [O; X; X] ].

(** Eight small boards won so that nobody has a line of small boards,
    the ninth drawn: no cell can be played any more. *)
Definition stalledBoard : Board :=
  [ wonByX; wonByO; wonByX;
    wonByX; wonByO; wonByO;
    wonByO; wonByX; drawn ].

(** Only small board 1 is won. *)
Definition secondWonBoard : Board :=
  [ getEmptySmallBoard; wonByX; getEmptySmallBoard;
    getEmptySmallBoard; getEmptySmallBoard; getEmptySmallBoard;
    getEmptySmallBoard; getEmptySmallBoard; getEmptySmallBoard ].

(** ** Vocabulary for the handlers *)

(** The make-move request of [socket] passes every check of the handler:
    the socket is seated with mark [mover], it is that mark's turn, and
    the validator says yes. *)
Definition accepted (g : Game) (socket : string) (position : Position)
    (mover : Sign) : Prop :=
  seatSign g socket = Some mover
  ∧ mover ≠ Empty
  ∧ mover = currentPlayer g
  ∧ isValidMove (smallBoard position) (row position) (cell position)
      (gameOver g) (board g) (currentBoard g) (currentPlayer g) mover
    = Ret true.

(** The four ways a make-move request is turned down, with the text of
    the error sent back. *)
Inductive rejected (s : Server) (socket roomCode : string)
    (position : Position) : string → Prop :=
  | rejected_no_room :
      games s !! roomCode = None →
      rejected s socket roomCode position "Room not found!"
  | rejected_no_seat g :
      games s !! roomCode = Some g →
      seatSign g socket = None ∨ seatSign g socket = Some Empty →
      rejected s socket roomCode position "Player not found!"
  | rejected_turn g mover :
      games s !! roomCode = Some g →
      seatSign g socket = Some mover → mover ≠ Empty →
      mover ≠ currentPlayer g →
      rejected s socket roomCode position "Not your turn!"
  | rejected_invalid g mover :
      games s !! roomCode = Some g →
      seatSign g socket = Some mover → mover ≠ Empty →
      mover = currentPlayer g →
      isValidMove (smallBoard position) (row position) (cell position)
        (gameOver g) (board g) (currentBoard g) (currentPlayer g) mover
      = Ret false →
      rejected s socket roomCode position "Invalid move!".

(** The snapshot broadcast after a move. *)
Definition moveMade (roomCode : string) (g : Game) : Message :=
  move_made roomCode (board g) (currentPlayer g) (currentBoard g)
    (winner g) (isTie g) (gameOver g).

(** What every game kept in the registry satisfies. *)
Definition game_inv (g : Game) : Prop :=
  wf_board (board g)
  ∧ ¬ (winner g ≠ None ∧ isTie g = true)
  ∧ (winner g ≠ None ∨ isTie g = true → gameOver g = true).

(** ** Example games *)

Definition seats : list Player := [mkPlayer "a" X; mkPlayer "b" O].

Definition freshGame : Game :=
  mkGame seats getDefaultBoard X None false None false.

(** [X] has won small boards 0 and 1 and needs one more cell in small
    board 2 to win the top row of small boards. *)
Definition almostWonBoard : Board :=
  [ wonByX; wonByX;
    [ [X; X; Empty]; [Empty; Empty; Empty]; [Empty; Empty; Empty] ];
    getEmptySmallBoard; getEmptySmallBoard; getEmptySmallBoard;
    getEmptySmallBoard; getEmptySmallBoard; getEmptySmallBoard ].

Definition almostWonGame : Game :=
  mkGame seats almostWonBoard X (Some 2) false None false.

Definition wonBoard : Board :=
  [ wonByX; wonByX; wonByX;
    getEmptySmallBoard; getEmptySmallBoard; getEmptySmallBoard;
    getEmptySmallBoard; getEmptySmallBoard; getEmptySmallBoard ].

Definition wonGame : Game :=
  mkGame seats wonBoard X (Some 2) true (Some X) false.

(** A server with the single room ["R"]. *)
Definition room (g : Game) : Server := mkServer {["R"%string := g]} [].

(** The server after a list of requests, each with the socket it came
    from. *)
Definition serve (s : Server) (reqs : list (string * Request)) : Server :=
  foldl (fun s r => after r.1 r.2 s) s reqs.

(** A whole game: ["a"] opens room ["R"], ["b"] joins, and 23 moves later
    [X] owns the small boards 0, 4 and 8. *)
Definition winningPlay : list (string * Request) :=
  [ ("a", CreateRoom "R"); ("b", JoinRoom "R");
    ("a", MakeMove "R" (mkPosition 4 1 2));
    ("b", MakeMove "R" (mkPosition 5 1 2));
    ("a", MakeMove "R" (mkPosition 5 0 2));
    ("b", MakeMove "R" (mkPosition 2 2 2));
    ("a", MakeMove "R" (mkPosition 8 1 2));
    ("b", MakeMove "R" (mkPosition 5 2 2));
    ("a", MakeMove "R" (mkPosition 8 1 0));
    ("b", MakeMove "R" (mkPosition 3 1 1));
    ("a", MakeMove "R" (mkPosition 4 1 0));
    ("b", MakeMove "R" (mkPosition 3 2 2));
    ("a", MakeMove "R" (mkPosition 8 2 0));
    ("b", MakeMove "R" (mkPosition 6 2 1));
    ("a", MakeMove "R" (mkPosition 7 1 0));
    ("b", MakeMove "R" (mkPosition 3 0 0));
    ("a", MakeMove "R" (mkPosition 0 2 0));
    ("b", MakeMove "R" (mkPosition 6 0 0));
    ("a", MakeMove "R" (mkPosition 0 0 0));
    ("b", MakeMove "R" (mkPosition 0 2 2));
    ("a", MakeMove "R" (mkPosition 8 1 1));
    ("b", MakeMove "R" (mkPosition 4 0 0));
    ("a", MakeMove "R" (mkPosition 0 1 0));
    ("b", MakeMove "R" (mkPosition 2 1 0));
    ("a", MakeMove "R" (mkPosition 4 1 1)) ]%string.

Definition finished : Server := serve initial winningPlay.

(** * Basic facts *)

Section Lookup.
Context {A : Type}.
Implicit Types (l : list A) (i : Z).

Lemma lookupZ_Some l i a :
  lookupZ l i = Some a ↔ 0 ≤ i ∧ l !! Z.to_nat i = Some a.
Proof.
  unfold lookupZ. case_decide; split; try done.
  - by intros [? ?].
  - intros [? _]. lia.
Qed.

Lemma lookupZ_of_nat l (n : nat) : lookupZ l (Z.of_nat n) = l !! n.
Proof.
  unfold lookupZ. case_decide; [|lia]. by rewrite Nat2Z.id.
Qed.

Lemma lookupZ_lt l i a : lookupZ l i = Some a → 0 ≤ i < Z.of_nat (length l).
Proof.
  intros [? Hl]%lookupZ_Some. apply lookup_lt_Some in Hl. lia.
Qed.

Lemma lookupZ_is_Some l i :
  is_Some (lookupZ l i) ↔ 0 ≤ i < Z.of_nat (length l).
Proof.
  split.
  - intros [a Ha]. by eapply lookupZ_lt.
  - intros [? ?]. unfold lookupZ. case_decide; [|lia].
    apply lookup_lt_is_Some. lia.
Qed.

Lemma lookupZ_insert_eq l i a :
  0 ≤ i < Z.of_nat (length l) →
  lookupZ (<[Z.to_nat i := a]> l) i = Some a.
Proof.
  intros [? ?]. unfold lookupZ. case_decide; [|lia].
  apply list_lookup_insert_eq. lia.
Qed.

Lemma lookupZ_insert_ne l i j a :
  0 ≤ i → i ≠ j → lookupZ (<[Z.to_nat i := a]> l) j = lookupZ l j.
Proof.
  intros ? ?. unfold lookupZ. case_decide; [|done].
  apply list_lookup_insert_ne. lia.
Qed.

Lemma index_Ret l i a : index l i = Ret a ↔ lookupZ l i = Some a.
Proof. unfold index. destruct (lookupZ l i); split; congruence. Qed.
End Lookup.

Lemma exc_bind_Ret {A B : Type} (m : exc A) (k : A → exc B) (b : B) :
  m ≫= k = Ret b ↔ ∃ a, m = Ret a ∧ k a = Ret b.
Proof.
  destruct m as [a|f]; simpl; split.
  - intros ?. by exists a.
  - by intros (? & [= <-] & ?).
  - done.
  - by intros (? & ? & ?).
Qed.

Lemma wf_small_inv (b : SmallBoard) :
  wf_small b →
  ∃ a0 a1 a2 a3 a4 a5 a6 a7 a8,
    b = [[a0; a1; a2]; [a3; a4; a5]; [a6; a7; a8]].
Proof.
  intros [Hlen Hall].
  destruct b as [|[|a0 [|a1 [|a2 [|]]]] [|[|a3 [|a4 [|a5 [|]]]]
                  [|[|a6 [|a7 [|a8 [|]]]] [|]]]]; try done;
    repeat match goal with
           | H : Forall _ (_ :: _) |- _ => apply Forall_cons in H as [? ?]
           end; simplify_eq/=.
  by eexists _, _, _, _, _, _, _, _, _.
Qed.

Lemma wf_small_explicit a0 a1 a2 a3 a4 a5 a6 a7 a8 :
  wf_small [[a0; a1; a2]; [a3; a4; a5]; [a6; a7; a8]].
Proof. split; [done|]. by repeat constructor. Qed.

Lemma has_line_b (b : SmallBoard) (m : Sign) :
  has_line b m ↔ has_lineb b m = true.
Proof.
  unfold has_line, has_lineb. rewrite existsb_exists. split.
  - intros (l & Hl & Hall). exists l. split; [by apply list_elem_of_In|].
    apply forallb_forall. intros rc Hrc%list_elem_of_In.
    apply bool_decide_eq_true. auto.
  - intros (l & Hl%list_elem_of_In & Hall). exists l. split; [done|].
    intros rc Hrc%list_elem_of_In.
    rewrite forallb_forall in Hall. apply Hall in Hrc.
    by apply bool_decide_eq_true in Hrc.
Qed.

Lemma bool_decide_cell (o : option Sign) (m : Sign) :
  bool_decide (o = Some m)
  = match o with Some s => Sign_eqb s m | None => false end.
Proof.
  destruct o as [s|]; [|done]. unfold Sign_eqb.
  apply bool_decide_ext. naive_solver.
Qed.

(** On a 3×3 grid the win check never throws and finds exactly the
    eight lines. *)
Lemma checkLines_explicit a0 a1 a2 a3 a4 a5 a6 a7 a8 m :
  let b := [[a0; a1; a2]; [a3; a4; a5]; [a6; a7; a8]] in
  checkLines b m [0; 1; 2] = Ret (has_lineb b m).
Proof.
  intros b. unfold b, has_lineb, lines. cbn [existsb forallb fst snd].
  rewrite !bool_decide_cell. cbv -[Sign_eqb].
  destruct (Sign_eqb a0 m), (Sign_eqb a1 m), (Sign_eqb a2 m),
    (Sign_eqb a3 m), (Sign_eqb a4 m), (Sign_eqb a5 m),
    (Sign_eqb a6 m), (Sign_eqb a7 m), (Sign_eqb a8 m); reflexivity.
Qed.

Lemma checkSmallBoardWin_wf (b : SmallBoard) (m : Sign) :
  wf_small b → checkSmallBoardWin b m = Ret (has_lineb b m).
Proof.
  intros (a0 & a1 & a2 & a3 & a4 & a5 & a6 & a7 & a8 & ->)%wf_small_inv.
  apply checkLines_explicit.
Qed.

Lemma checkWin_wf (b : SmallBoard) (m : Sign) :
  wf_small b → checkWin b m = Ret (has_lineb b m).
Proof. apply checkSmallBoardWin_wf. Qed.

(** The indices [getEmptyCellIndexes] lists, for a grid of any shape. *)
Lemma elem_of_getEmptyCellIndexes (b : SmallBoard) (k : Z) :
  k ∈ getEmptyCellIndexes b ↔
  ∃ (r c : nat) line,
    b !! r = Some line ∧ line !! c = Some Empty
    ∧ k = Z.of_nat c + 3 * Z.of_nat r.
Proof.
  unfold getEmptyCellIndexes. rewrite list_elem_of_join. split.
  - intros (l & Hk & Hl).
    apply elem_of_lookup_imap in Hl as (r & line & -> & Hr).
    apply list_elem_of_omap in Hk as (o & Ho & ->).
    apply elem_of_lookup_imap in Ho as (c & s & Hs & Hc).
    exists r, c, line. unfold Sign_eqb in Hs. case_bool_decide; [|done].
    simplify_eq. done.
  - intros (r & c & line & Hr & Hc & ->).
    eexists. split; [|by eapply elem_of_lookup_imap_2].
    apply list_elem_of_omap. eexists. split.
    + by eapply elem_of_lookup_imap_2.
    + done.
Qed.

Lemma cellAt_Some (b : SmallBoard) (r c : Z) (s : Sign) :
  cellAt b r c = Some s ↔
  ∃ line, 0 ≤ r ∧ 0 ≤ c ∧ b !! Z.to_nat r = Some line
          ∧ line !! Z.to_nat c = Some s.
Proof.
  unfold cellAt. split.
  - intros (line & Hr & Hc)%bind_Some.
    apply lookupZ_Some in Hr as [? ?]. apply lookupZ_Some in Hc as [? ?].
    by exists line.
  - intros (line & ? & ? & Hr & Hc). apply bind_Some. exists line.
    by rewrite !lookupZ_Some.
Qed.

Lemma getEmptyCellIndexes_nil (b : SmallBoard) :
  getEmptyCellIndexes b = [] ↔ ¬ has_empty b.
Proof.
  split.
  - intros Hnil (r & c & (line & ? & ? & Hr & Hc)%cellAt_Some).
    assert (Z.of_nat (Z.to_nat c) + 3 * Z.of_nat (Z.to_nat r)
            ∈ getEmptyCellIndexes b) as Hin.
    { apply elem_of_getEmptyCellIndexes. by eexists _, _, _. }
    rewrite Hnil in Hin. by apply not_elem_of_nil in Hin.
  - intros Hno. destruct (getEmptyCellIndexes b) as [|k ks] eqn:E; [done|].
    exfalso. apply Hno.
    assert (k ∈ getEmptyCellIndexes b) as Hin by (rewrite E; left).
    apply elem_of_getEmptyCellIndexes in Hin as (r & c & line & Hr & Hc & _).
    exists (Z.of_nat r), (Z.of_nat c). apply cellAt_Some. exists line.
    rewrite !Nat2Z.id. repeat split; [lia|lia|done|done].
Qed.

(** The counter of [canMoveToSmallBoard]: the inner [reduce]. *)
Lemma countLine_spec (line : list Sign) (acc : Z) :
  let count :=
    foldl (fun acc cell => acc + Number (Sign_eqb cell Empty)) acc line in
  acc ≤ count ∧ (acc < count ↔ Empty ∈ line).
Proof.
  revert acc. induction line as [|s line IH]; intros acc; simpl.
  - split; [lia|]. split; [lia|]. by intros ?%not_elem_of_nil.
  - destruct (IH (acc + Number (Sign_eqb s Empty))) as [Hle Hiff].
    rewrite elem_of_cons.
    unfold Sign_eqb, Number in *. case_bool_decide; subst.
    + split; [lia|]. split; [by left|lia].
    + rewrite Z.add_0_r in *. split; [done|]. rewrite Hiff.
      split; [by right|]. by intros [?|?].
Qed.

(** The outer [reduce]. *)
Lemma countBoard_spec (b : SmallBoard) (acc : Z) :
  let count :=
    foldl (fun acc line =>
             acc + foldl (fun acc cell => acc + Number (Sign_eqb cell Empty))
                         0 line) acc b in
  acc ≤ count ∧ (acc < count ↔ ∃ line, line ∈ b ∧ Empty ∈ line).
Proof.
  revert acc. induction b as [|line b IH]; intros acc; simpl.
  - split; [lia|]. split; [lia|]. by intros (? & ?%not_elem_of_nil & _).
  - destruct (countLine_spec line 0) as [Hle Hiff]. simpl in Hle, Hiff.
    set (n := foldl _ 0 line) in *.
    destruct (IH (acc + n)) as [Hle' Hiff']. split; [lia|].
    destruct (decide (Empty ∈ line)) as [Hin|Hnin].
    + split; [|apply Hiff in Hin; lia].
      intros _. exists line. split; [left|done].
    + assert (n = 0) as -> by (apply Z.le_antisymm; [|done];
        apply Z.nlt_ge; by rewrite Hiff).
      rewrite Z.add_0_r in *. rewrite Hiff'. split.
      * intros (l & ? & ?). exists l. split; [by right|done].
      * intros (l & [->|?]%elem_of_cons & ?); [done|]. by exists l.
Qed.

Lemma has_empty_elem (b : SmallBoard) :
  has_empty b ↔ ∃ line, line ∈ b ∧ Empty ∈ line.
Proof.
  split.
  - intros (r & c & (line & _ & _ & Hr & Hc)%cellAt_Some).
    exists line. split; eapply list_elem_of_lookup_2; eauto.
  - intros (line & (r & Hr)%list_elem_of_lookup & (c & Hc)%list_elem_of_lookup).
    exists (Z.of_nat r), (Z.of_nat c). apply cellAt_Some. exists line.
    rewrite !Nat2Z.id. repeat split; [lia|lia|done|done].
Qed.

(** [canMoveToSmallBoard] on a 3×3 grid: it returns, and says yes exactly
    when a cell is empty and neither mark has a line. *)
Lemma canMoveToSmallBoard_wf (b : SmallBoard) :
  wf_small b →
  ∃ ok, canMoveToSmallBoard b = Ret ok
        ∧ (ok = true ↔ has_empty b ∧ undecided b).
Proof.
  intros Hwf. unfold canMoveToSmallBoard, undecided.
  destruct (countBoard_spec b 0) as [_ Hiff]. simpl in Hiff.
  rewrite <- has_empty_elem in Hiff.
  rewrite !checkSmallBoardWin_wf by done. setoid_rewrite has_line_b.
  case_decide as Hpos.
  - assert (has_empty b) by (apply Hiff; lia).
    exists (negb (has_lineb b X) && negb (has_lineb b O)). split.
    + simpl. by destruct (has_lineb b X).
    + destruct (has_lineb b X), (has_lineb b O); simpl; intuition congruence.
  - exists false. split; [done|]. split; [done|].
    intros [He _]. apply Hiff in He. lia.
Qed.

Lemma wf_board_lookup (bd : Board) (s : Z) (small : SmallBoard) :
  wf_board bd → lookupZ bd s = Some small → wf_small small.
Proof.
  intros [_ Hall] [_ Hs]%lookupZ_Some.
  eapply Forall_lookup_1 in Hall; eauto.
Qed.

Lemma cellIs_Ret_true (b : SmallBoard) (r c : Z) (v : Sign) :
  cellIs b r c v = Ret true ↔ cellAt b r c = Some v.
Proof.
  unfold cellIs, cellAt, index.
  destruct (lookupZ b r) as [line|]; simpl; [|split; congruence].
  destruct (lookupZ line c) as [s|]; simpl; [|split; congruence].
  unfold Sign_eqb. case_bool_decide; split; congruence.
Qed.

(** Where [isValidMove] returns at all, it returns this conjunction. *)
Lemma isValidMove_Ret (smallBoardIndex row col : Z) (gameOver : bool)
    (board : Board) (currentBoard : CurrentBoardIndex)
    (currentPlayer player : Sign) (v : bool) :
  isValidMove smallBoardIndex row col gameOver board currentBoard
    currentPlayer player = Ret v ↔
  ∃ small freeCell validBoard,
    lookupZ board smallBoardIndex = Some small
    ∧ cellIs small row col Empty = Ret freeCell
    ∧ canMoveToSmallBoard small = Ret validBoard
    ∧ v = freeCell
          && match currentBoard with
             | None => true
             | Some active => bool_decide (smallBoardIndex = active)
             end
          && validBoard && Sign_eqb currentPlayer player && negb gameOver.
Proof.
  unfold isValidMove. rewrite exc_bind_Ret. setoid_rewrite exc_bind_Ret.
  setoid_rewrite exc_bind_Ret. setoid_rewrite index_Ret. split.
  - intros (small & ? & freeCell & ? & validBoard & ? & [= <-]).
    by exists small, freeCell, validBoard.
  - intros (small & freeCell & validBoard & ? & ? & ? & ->).
    exists small. split; [done|]. exists freeCell. split; [done|].
    by exists validBoard.
Qed.

Lemma isValidMove_true (smallBoardIndex row col : Z) (gameOver : bool)
    (board : Board) (currentBoard : CurrentBoardIndex)
    (currentPlayer player : Sign) :
  wf_board board →
  isValidMove smallBoardIndex row col gameOver board currentBoard
    currentPlayer player = Ret true ↔
  targetCell board smallBoardIndex row col = Some Empty
  ∧ (currentBoard = None ∨ currentBoard = Some smallBoardIndex)
  ∧ (∃ small, lookupZ board smallBoardIndex = Some small
              ∧ undecided small ∧ has_empty small)
  ∧ player = currentPlayer
  ∧ gameOver = false.
Proof.
  intros Hwf. rewrite isValidMove_Ret. unfold targetCell. split.
  - intros (small & freeCell & validBoard & Hs & Hfree & Hcan & Hv).
    destruct (canMoveToSmallBoard_wf small) as (ok & Hok & Hokiff);
      [by eapply wf_board_lookup|].
    rewrite Hok in Hcan. injection Hcan as ->.
    symmetry in Hv. rewrite !andb_true_iff in Hv.
    destruct Hv as ((((-> & Hidx) & ->) & Hpl) & Hover).
    apply cellIs_Ret_true in Hfree. destruct Hokiff as [Hokt _].
    destruct (Hokt eq_refl) as [? ?].
    rewrite Hs. simpl. split; [done|]. split.
    { destruct currentBoard as [active|]; [right|by left].
      apply bool_decide_eq_true in Hidx. by subst. }
    split; [by exists small|]. split.
    { unfold Sign_eqb in Hpl. by apply bool_decide_eq_true in Hpl. }
    by apply negb_true_iff in Hover.
  - intros (Hcell & Hidx & (small & Hs & Hund & Hemp) & -> & ->).
    rewrite Hs in Hcell. simpl in Hcell.
    destruct (canMoveToSmallBoard_wf small) as (ok & Hok & Hokiff);
      [by eapply wf_board_lookup|].
    exists small, true, ok. split; [done|].
    split; [by apply cellIs_Ret_true|]. split; [done|].
    assert (ok = true) as -> by (by apply Hokiff).
    unfold Sign_eqb. rewrite bool_decide_eq_true_2 by done.
    destruct Hidx as [->| ->]; [done|].
    by rewrite bool_decide_eq_true_2.
Qed.


(** * Writes *)

Lemma lookupZ_cons {A : Type} (a : A) (l : list A) (k : Z) :
  lookupZ (a :: l) k = if decide (k = 0) then Some a else lookupZ l (k - 1).
Proof.
  unfold lookupZ. repeat case_decide; try lia; subst; try done.
  replace (Z.to_nat k) with (S (Z.to_nat (k - 1))) by lia. done.
Qed.

Lemma setCell_Ret (b b' : SmallBoard) (r c : Z) (v : Sign) :
  setCell b r c v = Ret b' ↔
  ∃ line, lookupZ b r = Some line ∧ 0 ≤ c < Z.of_nat (length line)
          ∧ b' = <[Z.to_nat r := <[Z.to_nat c := v]> line]> b.
Proof.
  unfold setCell, setIndex. rewrite exc_bind_Ret.
  setoid_rewrite index_Ret. split.
  - intros (line & Hr & Hset). exists line. split; [done|].
    case_decide; simpl in Hset; [|done]. split; congruence.
  - intros (line & Hr & Hc & ->). exists line. split; [done|].
    by rewrite decide_True.
Qed.

Lemma setCell_wf (b : SmallBoard) (r c : Z) (v : Sign) :
  wf_small b → 0 ≤ r < 3 → 0 ≤ c < 3 →
  ∃ b', setCell b r c v = Ret b' ∧ wf_small b'.
Proof.
  intros [Hlen Hall] Hr Hc.
  destruct (proj2 (lookupZ_is_Some b r)) as [line Hline]; [lia|].
  assert (length line = 3%nat) as Hl.
  { apply lookupZ_Some in Hline as [_ Hline].
    eapply Forall_lookup_1 in Hall; eauto. }
  exists (<[Z.to_nat r := <[Z.to_nat c := v]> line]> b). split.
  - apply setCell_Ret. exists line. split; [done|]. split; [lia|done].
  - split; [by rewrite length_insert|].
    apply Forall_insert; [done|]. by rewrite length_insert.
Qed.

Lemma cellAt_setCell (b b' : SmallBoard) (r c r' c' : Z) (v : Sign) :
  setCell b r c v = Ret b' →
  cellAt b' r' c'
  = if decide (r' = r ∧ c' = c) then Some v else cellAt b r' c'.
Proof.
  intros (line & Hr & Hc & ->)%setCell_Ret.
  pose proof (lookupZ_lt _ _ _ Hr) as Hrlt. unfold cellAt.
  destruct (decide (r' = r)) as [->|Hne].
  - rewrite lookupZ_insert_eq by done. rewrite Hr. simpl.
    destruct (decide (c' = c)) as [->|Hnec].
    + rewrite decide_True by done. by apply lookupZ_insert_eq.
    + rewrite decide_False by (by intros [_ ?]).
      apply lookupZ_insert_ne; [lia|done].
  - rewrite decide_False by (by intros [? _]).
    rewrite lookupZ_insert_ne by (lia || done). done.
Qed.

(** * The winner-board *)

Lemma winnerOf_cases (small : SmallBoard) :
  (has_line small X ∧ winnerOf small = X)
  ∨ (¬ has_line small X ∧ has_line small O ∧ winnerOf small = O)
  ∨ (¬ has_line small X ∧ ¬ has_line small O ∧ winnerOf small = Empty).
Proof.
  unfold winnerOf. rewrite !has_line_b.
  destruct (has_lineb small X), (has_lineb small O); intuition congruence.
Qed.

Lemma getWinnerBoard_loop_spec (rest : list SmallBoard) :
  ∀ (i : Z) (winBoard : SmallBoard),
    Forall wf_small rest → wf_small winBoard →
    0 ≤ i → i + Z.of_nat (length rest) ≤ 9 →
    ∃ winBoard',
      getWinnerBoard_loop rest i winBoard = Ret winBoard'
      ∧ wf_small winBoard'
      ∧ ∀ r c, 0 ≤ r < 3 → 0 ≤ c < 3 →
          cellAt winBoard' r c
          = match lookupZ rest (3 * r + c - i) with
            | Some small =>
                match winnerOf small with
                | Empty => cellAt winBoard r c
                | m => Some m
                end
            | None => cellAt winBoard r c
            end.
Proof.
  induction rest as [|small rest IH]; intros i winBoard Hall Hwf Hi Hlen.
  - exists winBoard. split; [done|]. split; [done|]. intros r c _ _.
    unfold lookupZ. by case_decide.
  - apply Forall_cons in Hall as [Hsmall Hall]. simpl in Hlen.
    assert (0 ≤ i `div` 3 < 3) as Hy
      by (split; [apply Z.div_pos; lia|apply Z.div_lt_upper_bound; lia]).
    assert (0 ≤ i `mod` 3 < 3) as Hx by (apply Z.mod_pos_bound; lia).
    assert (∃ winBoard1,
      (if has_lineb small X then setCell winBoard (i `div` 3) (i `mod` 3) X
       else if has_lineb small O
            then setCell winBoard (i `div` 3) (i `mod` 3) O
            else Ret winBoard) = Ret winBoard1
      ∧ wf_small winBoard1
      ∧ ∀ r c, cellAt winBoard1 r c
               = if decide (r = i `div` 3 ∧ c = i `mod` 3)
                 then match winnerOf small with
                      | Empty => cellAt winBoard r c
                      | m => Some m
                      end
                 else cellAt winBoard r c) as (winBoard1 & Hstep & Hwf1 & Hc1).
    { unfold winnerOf.
      destruct (has_lineb small X); [|destruct (has_lineb small O)].
      - destruct (setCell_wf winBoard (i `div` 3) (i `mod` 3) X)
          as (w & Hw & ?); [done..|].
        exists w. split; [done|]. split; [done|]. intros r c.
        by apply cellAt_setCell.
      - destruct (setCell_wf winBoard (i `div` 3) (i `mod` 3) O)
          as (w & Hw & ?); [done..|].
        exists w. split; [done|]. split; [done|]. intros r c.
        by apply cellAt_setCell.
      - exists winBoard. split; [done|]. split; [done|]. intros r c.
        by case_decide. }
    destruct (IH (i + 1) winBoard1) as (winBoard' & Hrun & Hwf' & Hcells);
      [done|done|lia|lia|].
    exists winBoard'. split.
    { simpl. rewrite !checkSmallBoardWin_wf by done. simpl.
      destruct (has_lineb small X); simpl.
      - rewrite Hstep. done.
      - destruct (has_lineb small O); simpl.
        + rewrite Hstep. done.
        + by injection Hstep as ->. }
    split; [done|]. intros r c Hr Hc.
    rewrite Hcells by done. rewrite Hc1. rewrite lookupZ_cons.
    replace (3 * r + c - (i + 1)) with (3 * r + c - i - 1) by lia.
    pose proof (Z.div_mod i 3 ltac:(lia)) as Hdm.
    destruct (decide (3 * r + c - i = 0)) as [Hz|Hnz].
    + assert (r = i `div` 3 ∧ c = i `mod` 3) as [-> ->] by lia.
      rewrite decide_True by done.
      unfold lookupZ. rewrite decide_False by lia. done.
    + rewrite decide_False by lia. done.
Qed.

Lemma cellAt_getEmptySmallBoard (r c : Z) :
  0 ≤ r < 3 → 0 ≤ c < 3 → cellAt getEmptySmallBoard r c = Some Empty.
Proof.
  intros Hr Hc.
  assert (r = 0 ∨ r = 1 ∨ r = 2) as [->|[->| ->]] by lia;
    assert (c = 0 ∨ c = 1 ∨ c = 2) as [->|[->| ->]] by lia; reflexivity.
Qed.

Lemma getWinnerBoard_spec (board : Board) :
  wf_board board →
  ∃ winBoard,
    getWinnerBoard board = Ret winBoard
    ∧ wf_small winBoard
    ∧ ∀ i small, lookupZ board i = Some small →
        cellAt winBoard (i `div` 3) (i `mod` 3) = Some (winnerOf small).
Proof.
  intros [Hlen Hall].
  destruct (getWinnerBoard_loop_spec board 0 getEmptySmallBoard)
    as (winBoard & Hrun & Hwf & Hcells);
    [done|apply wf_small_explicit|lia|lia|].
  exists winBoard. split; [done|]. split; [done|].
  intros i small Hi. pose proof (lookupZ_lt _ _ _ Hi) as Hrange.
  assert (0 ≤ i `div` 3 < 3) as Hy
    by (split; [apply Z.div_pos; lia|apply Z.div_lt_upper_bound; lia]).
  assert (0 ≤ i `mod` 3 < 3) as Hx by (apply Z.mod_pos_bound; lia).
  rewrite Hcells by done.
  replace (3 * i `div` 3 + i `mod` 3 - 0) with i
    by (pose proof (Z.div_mod i 3 ltac:(lia)); lia).
  rewrite Hi, cellAt_getEmptySmallBoard by done.
  by destruct (winnerOf small).
Qed.

(** C7.  On a well-formed main board [getWinnerBoard] returns a 3×3 grid
    in which, for every small board index [i], the cell in column
    [x = i mod 3] of row [y = i / 3] (the source writes [winBoard[y][x]])
    carries the mark that has three in a row in small board [i] ([X]
    first, should both have one) and is empty when neither mark has. *)
Theorem getWinnerBoard_cells (board : Board) :
  wf_board board →
  ∃ winBoard,
    getWinnerBoard board = Ret winBoard
    ∧ wf_small winBoard
    ∧ ∀ i small, lookupZ board i = Some small →
        ∃ m, cellAt winBoard (i `div` 3) (i `mod` 3) = Some m
             ∧ ((m = X ∧ has_line small X)
                ∨ (m = O ∧ has_line small O ∧ ¬ has_line small X)
                ∨ (m = Empty ∧ undecided small)).
Proof.
  intros (winBoard & Hrun & Hwf & Hcells)%getWinnerBoard_spec.
  exists winBoard. split; [done|]. split; [done|].
  intros i small Hi. exists (winnerOf small). split; [by apply Hcells|].
  unfold undecided.
  destruct (winnerOf_cases small) as [[? ->]|[(? & ? & ->)|(? & ? & ->)]];
    auto.
Qed.

(** * Tie *)

Lemma checkTie_wf (winnerBoard : SmallBoard) :
  wf_small winnerBoard →
  checkTie winnerBoard
  = Ret (bool_decide (getEmptyCellIndexes winnerBoard = [])).
Proof.
  intros (a0 & a1 & a2 & a3 & a4 & a5 & a6 & a7 & a8 & ->)%wf_small_inv.
  cbv -[Sign_eqb].
  destruct (Sign_eqb a0 Empty), (Sign_eqb a1 Empty), (Sign_eqb a2 Empty),
    (Sign_eqb a3 Empty), (Sign_eqb a4 Empty), (Sign_eqb a5 Empty),
    (Sign_eqb a6 Empty), (Sign_eqb a7 Empty), (Sign_eqb a8 Empty);
    reflexivity.
Qed.

Lemma cellAt_range (b : SmallBoard) (r c : Z) (s : Sign) :
  wf_small b → cellAt b r c = Some s → 0 ≤ r < 3 ∧ 0 ≤ c < 3.
Proof.
  intros [Hlen Hall] (line & Hr & Hc)%bind_Some.
  pose proof (lookupZ_lt _ _ _ Hr). pose proof (lookupZ_lt _ _ _ Hc).
  apply lookupZ_Some in Hr as [_ Hr].
  eapply Forall_lookup_1 in Hall; eauto. simpl in Hall. lia.
Qed.

Lemma checkTie_Ret (winnerBoard : SmallBoard) :
  wf_small winnerBoard →
  ∃ tied, checkTie winnerBoard = Ret tied
          ∧ (tied = true ↔ ¬ has_empty winnerBoard).
Proof.
  intros Hwf. eexists. split; [by apply checkTie_wf|].
  by rewrite bool_decide_eq_true, getEmptyCellIndexes_nil.
Qed.

Lemma winnerOf_Empty (small : SmallBoard) :
  winnerOf small = Empty ↔ undecided small.
Proof.
  unfold undecided.
  destruct (winnerOf_cases small) as [[? ->]|[(? & ? & ->)|(? & ? & ->)]];
    intuition congruence.
Qed.

(** C2.  On a 3×3 winner-board [checkTie] returns [true] exactly when no
    cell of it is empty.  For the winner-board of a main board this
    means that every small board has a line for one of the marks; so as
    soon as one small board is full but undecided, [checkTie] returns
    [false]. *)
Theorem checkTie_iff (winnerBoard : SmallBoard) (board : Board) :
  wf_small winnerBoard → wf_board board →
  (∃ tied, checkTie winnerBoard = Ret tied
           ∧ (tied = true ↔ ∀ r c, cellAt winnerBoard r c ≠ Some Empty))
  ∧ ∃ winBoard,
      getWinnerBoard board = Ret winBoard
      ∧ (checkTie winBoard = Ret true ↔
         ∀ i small, lookupZ board i = Some small →
                    has_line small X ∨ has_line small O)
      ∧ ((∃ i small, lookupZ board i = Some small
                     ∧ ¬ has_empty small ∧ undecided small) →
         checkTie winBoard = Ret false).
Proof.
  intros Hwfw Hwfb. split.
  { destruct (checkTie_Ret winnerBoard Hwfw) as (tied & Hrun & Hiff).
    exists tied. split; [done|]. rewrite Hiff. unfold has_empty. split.
    - intros Hno r c Hrc. apply Hno. by exists r, c.
    - intros Hno (r & c & Hrc). by apply (Hno r c). }
  destruct (getWinnerBoard_spec board Hwfb) as (winBoard & Hrun & Hwf & Hcells).
  destruct (checkTie_Ret winBoard Hwf) as (tied & Htie & Hiff).
  exists winBoard. split; [done|]. rewrite Htie. split; [split|].
  - intros [= ->]. intros i small Hi.
    destruct (winnerOf_cases small) as [[? _]|[(_ & ? & _)|(_ & _ & HE)]];
      [by left|by right|].
    exfalso. apply (proj1 Hiff eq_refl).
    exists (i `div` 3), (i `mod` 3). by rewrite (Hcells i small Hi), HE.
  - intros Hall. f_equal. apply Hiff. intros (r & c & Hrc).
    destruct (cellAt_range _ _ _ _ Hwf Hrc) as [Hr Hc].
    destruct (proj2 (lookupZ_is_Some board (3 * r + c))) as [small Hs];
      [destruct Hwfb as [-> _]; lia|].
    pose proof (Hcells _ _ Hs) as Hcell.
    replace ((3 * r + c) `div` 3) with r in Hcell
      by (apply Z.div_unique with c; lia).
    replace ((3 * r + c) `mod` 3) with c in Hcell
      by (apply Z.mod_unique with r; lia).
    rewrite Hrc in Hcell. injection Hcell as HE. symmetry in HE.
    apply winnerOf_Empty in HE as [? ?].
    destruct (Hall _ _ Hs); done.
  - intros (i & small & Hi & _ & Hund). f_equal.
    destruct tied; [|done]. exfalso. apply (proj1 Hiff eq_refl).
    exists (i `div` 3), (i `mod` 3). rewrite (Hcells i small Hi).
    f_equal. by apply winnerOf_Empty.
Qed.

Lemma wf_wonByX : wf_small wonByX.
Proof. apply wf_small_explicit. Qed.

Lemma wf_wonByO : wf_small wonByO.
Proof. apply wf_small_explicit. Qed.

Lemma wf_drawn : wf_small drawn.
Proof. apply wf_small_explicit. Qed.

Lemma wf_getEmptySmallBoard : wf_small getEmptySmallBoard.
Proof. apply wf_small_explicit. Qed.

Lemma wf_getDefaultBoard : wf_board getDefaultBoard.
Proof.
  split; [done|].
  repeat (apply Forall_cons; split; [apply wf_getEmptySmallBoard|]).
  apply Forall_nil_2.
Qed.

Lemma wf_stalledBoard : wf_board stalledBoard.
Proof.
  split; [done|]. unfold stalledBoard.
  repeat (apply Forall_cons; split;
          [first [apply wf_wonByX|apply wf_wonByO|apply wf_drawn]|]).
  apply Forall_nil_2.
Qed.

Lemma wf_secondWonBoard : wf_board secondWonBoard.
Proof.
  split; [done|]. unfold secondWonBoard.
  repeat (apply Forall_cons; split;
          [first [apply wf_wonByX|apply wf_getEmptySmallBoard]|]).
  apply Forall_nil_2.
Qed.

(** The winner-board is indexed [winBoard[y][x]] with [y = i / 3]: small
    board 1 shows in row 0, column 1, and row 1, column 0 stays empty. *)
Example getWinnerBoard_row_major :
  ∃ winBoard, getWinnerBoard secondWonBoard = Ret winBoard
              ∧ cellAt winBoard 0 1 = Some X
              ∧ cellAt winBoard 1 0 = Some Empty.
Proof. eexists. split; [reflexivity|]. split; reflexivity. Qed.

(** A position in which the game cannot go on and is not declared tied:
    no move is valid for anybody, nobody has won, and [checkTie] says
    no. *)
Example stalledBoard_stuck :
  (∀ smallBoardIndex row col over currentBoard currentPlayer player,
     isValidMove smallBoardIndex row col over stalledBoard currentBoard
       currentPlayer player ≠ Ret true)
  ∧ ∃ winBoard, getWinnerBoard stalledBoard = Ret winBoard
                ∧ checkWin winBoard X = Ret false
                ∧ checkWin winBoard O = Ret false
                ∧ checkTie winBoard = Ret false.
Proof.
  split; [|eexists; split; [reflexivity|repeat split; reflexivity]].
  intros s r c over cb cp p Hvalid.
  apply (isValidMove_true s r c over stalledBoard cb cp p wf_stalledBoard)
    in Hvalid as (_ & _ & (small & Hs & [HX HO] & Hemp) & _).
  pose proof (lookupZ_lt _ _ _ Hs) as Hrange. simpl in Hrange.
  rewrite has_line_b in HX, HO.
  apply (proj1 (getEmptyCellIndexes_nil small)); [|done].
  assert (s = 0 ∨ s = 1 ∨ s = 2 ∨ s = 3 ∨ s = 4 ∨ s = 5 ∨ s = 6 ∨ s = 7
          ∨ s = 8) as Hcases by lia.
  repeat destruct Hcases as [->|Hcases]; try subst s;
    injection Hs as <-; first [by destruct HX|by destruct HO|reflexivity].
Qed.

(** * The make-move handler *)

Lemma make_move_rejected (s : Server) (socket roomCode : string)
    (position : Position) (text : string) :
  rejected s socket roomCode position text →
  make_move socket roomCode position s
  = (Ret (), mkServer (games s) (outbox s ++ [(ToSocket socket, error text)])).
Proof.
  intros Hrej. unfold make_move, mbind, M_bind, getGame, emit, lift. simpl.
  destruct Hrej as [Hg|g Hg [Hseat|Hseat]|g mover Hg Hseat HneE Hturn
                    |g mover Hg Hseat HneE Hturn Hvalid]; rewrite Hg.
  - done.
  - by rewrite Hseat.
  - by rewrite Hseat.
  - rewrite Hseat. unfold Sign_eqb.
    rewrite bool_decide_eq_false_2 by done. by destruct mover.
  - rewrite Hseat. unfold Sign_eqb.
    rewrite bool_decide_eq_true_2 by done. simpl.
    rewrite Hvalid. by destruct mover.
Qed.

(** A throw inside the validator happens before anything is written. *)
Lemma make_move_fault (s : Server) (socket roomCode : string)
    (position : Position) (g : Game) (mover : Sign) (f : fault) :
  games s !! roomCode = Some g →
  seatSign g socket = Some mover → mover ≠ Empty →
  mover = currentPlayer g →
  isValidMove (smallBoard position) (row position) (cell position)
    (gameOver g) (board g) (currentBoard g) (currentPlayer g) mover
  = Fault f →
  make_move socket roomCode position s = (Fault f, s).
Proof.
  intros Hg Hseat HneE Hturn Hvalid.
  unfold make_move, mbind, M_bind, getGame, emit, lift. simpl.
  rewrite Hg, Hseat. unfold Sign_eqb.
  rewrite bool_decide_eq_true_2 by done. simpl.
  rewrite Hvalid. by destruct mover.
Qed.

Lemma targetCell_Some (bd : Board) (s r c : Z) (v : Sign) :
  targetCell bd s r c = Some v ↔
  ∃ small, lookupZ bd s = Some small ∧ cellAt small r c = Some v.
Proof. unfold targetCell. by rewrite bind_Some. Qed.

Lemma setBoardCell_wf (bd : Board) (s r c : Z) (old v : Sign) :
  wf_board bd → targetCell bd s r c = Some old →
  ∃ small small',
    lookupZ bd s = Some small
    ∧ setCell small r c v = Ret small'
    ∧ setBoardCell bd s r c v = Ret (<[Z.to_nat s := small']> bd)
    ∧ wf_board (<[Z.to_nat s := small']> bd).
Proof.
  intros Hwf (small & Hs & Hcell)%targetCell_Some.
  pose proof (wf_board_lookup _ _ _ Hwf Hs) as Hsmall.
  destruct (cellAt_range _ _ _ _ Hsmall Hcell) as [Hr Hc].
  destruct (setCell_wf small r c v Hsmall Hr Hc) as (small' & Hset & Hwf').
  exists small, small'. split; [done|]. split; [done|]. split.
  - unfold setBoardCell. apply index_Ret in Hs. rewrite Hs. simpl.
    by rewrite Hset.
  - destruct Hwf as [Hlen Hall]. split; [by rewrite length_insert|].
    by apply Forall_insert.
Qed.

Lemma getNextBoardIndex_wf (bd : Board) (row col : Z) :
  wf_board bd → 0 ≤ row < 3 → 0 ≤ col < 3 →
  ∃ small,
    lookupZ bd (row * 3 + col) = Some small
    ∧ getNextBoardIndex bd row col
      = Ret (if has_lineb small X || has_lineb small O
                || bool_decide (getEmptyCellIndexes small = [])
             then None else Some (row * 3 + col)).
Proof.
  intros Hwf Hr Hc.
  destruct (proj2 (lookupZ_is_Some bd (row * 3 + col))) as [small Hs];
    [destruct Hwf as [-> _]; lia|].
  exists small. split; [done|]. unfold getNextBoardIndex.
  pose proof (wf_board_lookup _ _ _ Hwf Hs) as Hsmall.
  apply index_Ret in Hs. rewrite Hs. simpl.
  rewrite !checkSmallBoardWin_wf by done. simpl.
  destruct (has_lineb small X); [done|]. simpl.
  destruct (has_lineb small O); [done|]. simpl.
  destruct (getEmptyCellIndexes small); done.
Qed.

Lemma make_move_accepted (s : Server) (socket roomCode : string)
    (position : Position) (g : Game) (mover : Sign) :
  games s !! roomCode = Some g → wf_board (board g) →
  accepted g socket position mover →
  ∃ board' winBoard won tied next g',
    setBoardCell (board g) (smallBoard position) (row position)
      (cell position) mover = Ret board'
    ∧ wf_board board'
    ∧ getWinnerBoard board' = Ret winBoard
    ∧ wf_small winBoard
    ∧ checkWin winBoard mover = Ret won
    ∧ checkTie winBoard = Ret tied
    ∧ getNextBoardIndex board' (row position) (cell position) = Ret next
    ∧ make_move socket roomCode position s
      = (Ret (), mkServer (<[roomCode := g']> (games s))
                   (outbox s ++ [(ToRoom roomCode, moveMade roomCode g')]))
    ∧ g' = (let g1 := set_board g board' in
            let g2 :=
              if won then set_winner g1 (Some mover)
              else if tied then set_isTie g1 true
              else set_currentPlayer g1 (if Sign_eqb mover X then O else X) in
            if decide (winner g2 ≠ None ∨ isTie g2 = true)
            then set_gameOver g2 true
            else set_currentBoard g2 next).
Proof.
  intros Hg Hwf (Hseat & HneE & Hturn & Hvalid).
  pose proof Hvalid as Hv.
  apply isValidMove_true in Hv as (Hcell & _); [|done].
  destruct (setBoardCell_wf _ _ _ _ _ mover Hwf Hcell)
    as (small & small' & Hs & Hset & Hwrite & Hwf').
  set (board' := <[Z.to_nat (smallBoard position) := small']> (board g)) in *.
  destruct (getWinnerBoard_spec board' Hwf') as (winBoard & Hwin & Hwfw & _).
  destruct (checkTie_Ret winBoard Hwfw) as (tied & Htie & _).
  apply targetCell_Some in Hcell as (small0 & Hs0 & Hcell).
  destruct (cellAt_range _ _ _ _ (wf_board_lookup _ _ _ Hwf Hs0) Hcell)
    as [Hr Hc].
  destruct (getNextBoardIndex_wf board' (row position) (cell position)
              Hwf' Hr Hc) as (nsmall & _ & Hnext).
  eexists board', winBoard, (has_lineb winBoard mover), tied, _, _.
  split; [done|]. split; [done|]. split; [done|]. split; [done|].
  split; [by apply checkWin_wf|]. split; [done|]. split; [done|].
  split; [|reflexivity].
  unfold make_move, mbind, M_bind, getGame, emit, lift, assign, setGame,
    mret, M_ret, moveMade.
  simpl. rewrite Hg, Hseat.
  assert (Sign_eqb mover (currentPlayer g) = true) as ->
    by (by apply bool_decide_eq_true).
  assert ((if Sign_eqb mover X then O else X)
          = match mover with X => O | _ => X end) as Hflip
    by (by destruct mover).
  rewrite Hflip. clear Hflip. simpl.
  rewrite Hvalid. simpl. rewrite Hwrite. simpl. rewrite Hwin. simpl.
  rewrite checkWin_wf by done. simpl.
  destruct mover; [| |done].
  - destruct (has_lineb winBoard X); simpl.
    + by rewrite !insert_insert_eq.
    + rewrite Htie. simpl. destruct tied; simpl.
      * case_decide as Hd; [|exfalso; apply Hd; by right]. simpl.
        by rewrite !insert_insert_eq.
      * case_decide; unfold mbind, M_bind; simpl;
          [by rewrite !insert_insert_eq|].
        rewrite Hnext. simpl. by rewrite !insert_insert_eq.
  - destruct (has_lineb winBoard O); simpl.
    + by rewrite !insert_insert_eq.
    + rewrite Htie. simpl. destruct tied; simpl.
      * case_decide as Hd; [|exfalso; apply Hd; by right]. simpl.
        by rewrite !insert_insert_eq.
      * case_decide; unfold mbind, M_bind; simpl;
          [by rewrite !insert_insert_eq|].
        rewrite Hnext. simpl. by rewrite !insert_insert_eq.
Qed.

(** Every make-move request is turned down, throws inside the validator,
    or is accepted. *)
Lemma make_move_cases (s : Server) (socket roomCode : string)
    (position : Position) :
  (∃ text, rejected s socket roomCode position text)
  ∨ (∃ f, make_move socket roomCode position s = (Fault f, s))
  ∨ (∃ g mover, games s !! roomCode = Some g
                ∧ accepted g socket position mover).
Proof.
  destruct (games s !! roomCode) as [g|] eqn:Hg;
    [|left; eexists; by apply rejected_no_room].
  destruct (seatSign g socket) as [mover|] eqn:Hseat;
    [|left; eexists; eapply rejected_no_seat; eauto].
  destruct (decide (mover = Empty)) as [->|HneE];
    [left; eexists; eapply rejected_no_seat; eauto|].
  destruct (decide (mover = currentPlayer g)) as [Hturn|Hturn];
    [|left; eexists; eapply rejected_turn; eauto].
  destruct (isValidMove (smallBoard position) (row position) (cell position)
              (gameOver g) (board g) (currentBoard g) (currentPlayer g) mover)
    as [[|]|f] eqn:Hvalid.
  - right. right. by exists g, mover.
  - left. eexists. eapply rejected_invalid; eauto.
  - right. left. exists f. by eapply make_move_fault.
Qed.

(** * The other handlers *)

Lemma restart_game_over (s : Server) (socket roomCode : string) (g : Game) :
  games s !! roomCode = Some g → gameOver g = true →
  restart_game socket roomCode s
  = (Ret (),
     mkServer
       (<[roomCode := mkGame (players g) getDefaultBoard X None false None
                        false]> (games s))
       (outbox s ++ [(ToRoom roomCode,
                      game_restarted roomCode getDefaultBoard X None false
                        None false)])).
Proof.
  intros Hg Hover.
  unfold restart_game, mbind, M_bind, getGame, emit, assign, setGame,
    mret, M_ret. simpl. rewrite Hg, Hover. simpl.
  by rewrite !insert_insert_eq.
Qed.

Lemma restart_game_noop (s : Server) (socket roomCode : string) :
  games s !! roomCode = None
  ∨ (∃ g, games s !! roomCode = Some g ∧ gameOver g = false) →
  restart_game socket roomCode s = (Ret (), s).
Proof.
  intros Hno. unfold restart_game, mbind, M_bind, getGame, mret, M_ret.
  simpl. destruct Hno as [->|(g & -> & ->)]; done.
Qed.

Lemma create_room_run (s : Server) (socket roomCode : string) :
  create_room socket roomCode s
  = (Ret (),
     mkServer
       (<[roomCode := mkGame [mkPlayer socket X] getDefaultBoard X None false
                        None false]> (games s))
       (outbox s ++ [(ToSocket socket, room_created roomCode)])).
Proof.
  unfold create_room, mbind, M_bind, getGame, emit, setGame, mret, M_ret.
  simpl. rewrite lookup_insert_eq. simpl. by rewrite insert_insert_eq.
Qed.

(** Joining changes nothing but the seats, also when the handler throws. *)
Lemma join_room_games (s : Server) (socket roomCode rc : string) (g' : Game) :
  games (join_room socket roomCode s).2 !! rc = Some g' →
  ∃ g seats, games s !! rc = Some g ∧ g' = set_players g seats.
Proof.
  assert (∀ g, g = set_players g (players g)) as Hsame by (by intros []).
  unfold join_room, mbind, M_bind, getGame, emit, assign, setGame, lift,
    mret, M_ret. simpl.
  destruct (games s !! roomCode) as [g|] eqn:Hg; simpl;
    [|intros ?; exists g', (players g'); eauto].
  case_decide; simpl; [intros ?; exists g', (players g'); eauto|].
  destruct (players g) as [|p0 [|p1 seats]]; simpl; [| |simpl in *; lia];
    (intros Hl; destruct (decide (rc = roomCode)) as [->|Hne];
     [rewrite lookup_insert_eq in Hl; injection Hl as <-; by eexists _, _
     |rewrite lookup_insert_ne in Hl by done;
      exists g', (players g'); eauto]).
Qed.

(** * The registry invariant *)

Lemma accepted_not_over (g : Game) (socket : string) (position : Position)
    (mover : Sign) :
  wf_board (board g) → accepted g socket position mover →
  gameOver g = false.
Proof.
  intros Hwf (_ & _ & _ & Hvalid).
  apply isValidMove_true in Hvalid; [|done]. by destruct Hvalid as (_&_&_&_&?).
Qed.

Lemma game_inv_running (g : Game) :
  game_inv g → gameOver g = false → winner g = None ∧ isTie g = false.
Proof.
  intros (_ & _ & Hover) Hrun. split.
  - destruct (winner g) eqn:E; [|done].
    assert (gameOver g = true) by (apply Hover; left; congruence).
    congruence.
  - destruct (isTie g) eqn:E; [|done].
    assert (gameOver g = true) by (apply Hover; by right). congruence.
Qed.

Lemma make_move_inv (s : Server) (socket roomCode : string)
    (position : Position) :
  (∀ rc g, games s !! rc = Some g → game_inv g) →
  ∀ rc g, games (make_move socket roomCode position s).2 !! rc = Some g →
          game_inv g.
Proof.
  intros Hinv rc g'.
  destruct (make_move_cases s socket roomCode position)
    as [[text Hrej]|[[f Hf]|(g & mover & Hg & Hacc)]].
  - rewrite (make_move_rejected _ _ _ _ _ Hrej). simpl. apply Hinv.
  - rewrite Hf. simpl. apply Hinv.
  - pose proof (Hinv _ _ Hg) as Hgi. pose proof Hgi as (Hwf & _).
    pose proof (accepted_not_over _ _ _ _ Hwf Hacc) as Hrun.
    destruct (game_inv_running _ Hgi Hrun) as [Hw Ht].
    destruct (make_move_accepted _ _ _ _ _ _ Hg Hwf Hacc)
      as (board' & winBoard & won & tied & next & g1 & _ & Hwf' & _ & _ & _
          & _ & _ & Hrun' & ->).
    rewrite Hrun'. simpl.
    destruct (decide (rc = roomCode)) as [->|Hne];
      [|rewrite lookup_insert_ne by done; apply Hinv].
    rewrite lookup_insert_eq. intros [= <-].
    destruct won; [|destruct tied]; simpl.
    + split; [done|]. simpl. rewrite Ht. split; [by intros [_ ?]|done].
    + case_decide as Hd; [|exfalso; apply Hd; by right].
      split; [done|]. simpl. rewrite Hw. split; [by intros [? _]|done].
    + rewrite decide_False by (rewrite Hw, Ht; by intros [?|?]).
      split; [done|]. simpl. rewrite Hw, Ht.
      split; [by intros [? _]|by intros [?|?]].
Qed.

Lemma game_inv_fresh (seats : list Player) :
  game_inv (mkGame seats getDefaultBoard X None false None false).
Proof.
  split; [apply wf_getDefaultBoard|]. simpl.
  split; [by intros [? _]|by intros [?|?]].
Qed.

Lemma game_inv_after (s : Server) (socket : string) (req : Request) :
  (∀ rc g, games s !! rc = Some g → game_inv g) →
  ∀ rc g, games (after socket req s) !! rc = Some g → game_inv g.
Proof.
  intros Hinv rc g'. unfold after.
  destruct req as [roomCode|roomCode|roomCode position|roomCode]; simpl.
  - rewrite create_room_run. simpl.
    destruct (decide (rc = roomCode)) as [->|Hne].
    + rewrite lookup_insert_eq. intros [= <-]. apply game_inv_fresh.
    + rewrite lookup_insert_ne by done. apply Hinv.
  - intros (g & seats & Hg & ->)%join_room_games.
    by apply Hinv in Hg.
  - by apply make_move_inv.
  - destruct (games s !! roomCode) as [g|] eqn:Hg;
      [destruct (gameOver g) eqn:Hover|].
    + rewrite (restart_game_over _ _ _ _ Hg Hover). simpl.
      destruct (decide (rc = roomCode)) as [->|Hne].
      * rewrite lookup_insert_eq. intros [= <-]. apply game_inv_fresh.
      * rewrite lookup_insert_ne by done. apply Hinv.
    + rewrite restart_game_noop by (right; eauto). apply Hinv.
    + rewrite restart_game_noop by (by left). apply Hinv.
Qed.

Lemma reachable_inv (s : Server) :
  reachable s → ∀ rc g, games s !! rc = Some g → game_inv g.
Proof.
  induction 1 as [|socket req s _ IH].
  - intros rc g. simpl. by rewrite lookup_empty.
  - by apply game_inv_after.
Qed.

(** A finished game stays finished under every request except a restart
    of its room (and a new room created under the same code, which
    installs another game). *)
Lemma gameOver_stays (s : Server) (socket : string) (req : Request)
    (rc : string) (g : Game) :
  (∀ rc g, games s !! rc = Some g → game_inv g) →
  games s !! rc = Some g → gameOver g = true →
  req ≠ RestartGame rc → req ≠ CreateRoom rc →
  ∃ g', games (after socket req s) !! rc = Some g' ∧ gameOver g' = true.
Proof.
  intros Hinv Hg Hover Hnr Hnc. unfold after.
  destruct req as [roomCode|roomCode|roomCode position|roomCode]; simpl.
  - rewrite create_room_run. simpl.
    rewrite lookup_insert_ne by congruence. eauto.
  - unfold join_room, mbind, M_bind, getGame, emit, assign, setGame, lift,
      mret, M_ret. simpl.
    destruct (games s !! roomCode) as [g0|] eqn:Hg0; simpl; [|eauto].
    case_decide; simpl; [eauto|].
    destruct (decide (rc = roomCode)) as [->|Hne].
    + assert (g0 = g) as -> by congruence.
      destruct (players g) as [|p0 [|p1 seats]]; simpl;
        rewrite ?lookup_insert_eq; eauto.
    + destruct (players g0) as [|p0 [|p1 seats]]; simpl;
        rewrite ?lookup_insert_ne by done; eauto.
  - destruct (make_move_cases s socket roomCode position)
      as [[text Hrej]|[[f Hf]|(g0 & mover & Hg0 & Hacc)]].
    + rewrite (make_move_rejected _ _ _ _ _ Hrej). simpl. eauto.
    + rewrite Hf. simpl. eauto.
    + destruct (Hinv _ _ Hg0) as (Hwf0 & _).
      pose proof (accepted_not_over _ _ _ _ Hwf0 Hacc) as Hrun.
      assert (rc ≠ roomCode) as Hne by (intros ->; congruence).
      destruct (make_move_accepted _ _ _ _ _ _ Hg0 Hwf0 Hacc)
        as (? & ? & ? & ? & ? & g1 & _ & _ & _ & _ & _ & _ & _ & -> & _).
      simpl. rewrite lookup_insert_ne by done. eauto.
  - assert (rc ≠ roomCode) as Hne by congruence.
    destruct (games s !! roomCode) as [g0|] eqn:Hg0;
      [destruct (gameOver g0) eqn:Hover0|].
    + rewrite (restart_game_over _ _ _ _ Hg0 Hover0). simpl.
      rewrite lookup_insert_ne by done. eauto.
    + rewrite restart_game_noop by (right; eauto). eauto.
    + rewrite restart_game_noop by (by left). eauto.
Qed.

Lemma getEmptyCellIndexes_not_nil (b : SmallBoard) :
  getEmptyCellIndexes b ≠ [] ↔ has_empty b.
Proof.
  split; [|by intros ? ?%getEmptyCellIndexes_nil].
  destruct (getEmptyCellIndexes b) as [|k ks] eqn:E; [done|]. intros _.
  assert (k ∈ getEmptyCellIndexes b) as Hin by (rewrite E; left).
  apply elem_of_getEmptyCellIndexes in Hin as (r & c & line & Hr & Hc & _).
  exists (Z.of_nat r), (Z.of_nat c). apply cellAt_Some. exists line.
  rewrite !Nat2Z.id. repeat split; [lia|lia|done|done].
Qed.

(** * Main results about the validator and the handlers *)

(** C1.  On a well-formed main board, [isValidMove] returns [true] exactly
    when the targeted cell [board[smallBoardIndex][row][col]] is empty,
    the active board is unset or is [smallBoardIndex], the targeted small
    board is undecided and has an empty cell, the requesting mark is the
    current-turn mark, and the game is not over.  In particular no move
    into a small board that is full but undecided is ever valid. *)
Theorem isValidMove_iff (smallBoardIndex row col : Z) (gameOver : bool)
    (board : Board) (currentBoard : CurrentBoardIndex)
    (currentPlayer player : Sign) :
  wf_board board →
  (isValidMove smallBoardIndex row col gameOver board currentBoard
     currentPlayer player = Ret true ↔
   targetCell board smallBoardIndex row col = Some Empty
   ∧ (currentBoard = None ∨ currentBoard = Some smallBoardIndex)
   ∧ (∃ small, lookupZ board smallBoardIndex = Some small
               ∧ undecided small ∧ has_empty small)
   ∧ player = currentPlayer
   ∧ gameOver = false)
  ∧ (∀ small, lookupZ board smallBoardIndex = Some small →
              undecided small → ¬ has_empty small →
              isValidMove smallBoardIndex row col gameOver board
                currentBoard currentPlayer player ≠ Ret true).
Proof.
  intros Hwf. split; [by apply isValidMove_true|].
  intros small Hs Hund Hfull Hvalid.
  apply isValidMove_true in Hvalid; [|done].
  destruct Hvalid as (_ & _ & (small' & Hs' & _ & Hemp) & _).
  congruence.
Qed.

Lemma isValidMove_iff_witness :
  targetCell getDefaultBoard 4 1 1 = Some Empty
  ∧ isValidMove 8 0 0 false stalledBoard None X X ≠ Ret true.
Proof.
  split.
  - apply (isValidMove_iff 4 1 1 false getDefaultBoard None X X
             wf_getDefaultBoard).
    reflexivity.
  - apply (proj2 (isValidMove_iff 8 0 0 false stalledBoard None X X
                    wf_stalledBoard) drawn).
    + reflexivity.
    + split; rewrite has_line_b; vm_compute; discriminate.
    + apply getEmptyCellIndexes_nil. reflexivity.
Defined.

Lemma checkTie_iff_witness :
  ∃ winBoard, getWinnerBoard stalledBoard = Ret winBoard
              ∧ checkTie winBoard = Ret false.
Proof.
  destruct (checkTie_iff getEmptySmallBoard stalledBoard
              wf_getEmptySmallBoard wf_stalledBoard)
    as (_ & winBoard & Hrun & _ & Hdrawn).
  exists winBoard. split; [exact Hrun|]. apply Hdrawn.
  exists 8, drawn. split; [reflexivity|]. split.
  - apply getEmptyCellIndexes_nil. reflexivity.
  - split; rewrite has_line_b; vm_compute; discriminate.
Defined.

Lemma getWinnerBoard_cells_witness :
  ∃ winBoard m, getWinnerBoard secondWonBoard = Ret winBoard
                ∧ cellAt winBoard (1 `div` 3) (1 `mod` 3) = Some m
                ∧ (m = X ∨ m = O ∨ m = Empty).
Proof.
  destruct (getWinnerBoard_cells secondWonBoard wf_secondWonBoard)
    as (winBoard & Hrun & _ & Hcells).
  destruct (Hcells 1 wonByX eq_refl) as (m & Hm & Hcase).
  exists winBoard, m. split; [exact Hrun|]. split; [exact Hm|].
  destruct Hcase as [[? _]|[[? _]|[? _]]]; auto.
Defined.

(** C3.  After an accepted move at inner position ([row], [cell]) the
    room holds the game with the move written; if that game is not over,
    its active board is [row * 3 + cell] when the small board at that
    index, as it stands after the move, is undecided and has an empty
    cell, and is unset otherwise.  The index is computed from the move's
    row and column, whatever small board was played in. *)
Theorem next_board_after_move (s : Server) (socket roomCode : string)
    (position : Position) (g : Game) (mover : Sign) :
  games s !! roomCode = Some g → wf_board (board g) →
  accepted g socket position mover →
  ∃ g' small,
    games (after socket (MakeMove roomCode position) s) !! roomCode = Some g'
    ∧ setBoardCell (board g) (smallBoard position) (row position)
        (cell position) mover = Ret (board g')
    ∧ lookupZ (board g') (row position * 3 + cell position) = Some small
    ∧ (gameOver g' = false →
       (undecided small ∧ has_empty small →
        currentBoard g' = Some (row position * 3 + cell position))
       ∧ (¬ (undecided small ∧ has_empty small) →
          currentBoard g' = None)).
Proof.
  intros Hg Hwf Hacc.
  destruct (make_move_accepted _ _ _ _ _ _ Hg Hwf Hacc)
    as (board' & winBoard & won & tied & next & g' & Hwrite & Hwf' & _ & _
        & _ & _ & Hnext & Hrun & Hg').
  pose proof Hacc as (_ & _ & _ & Hvalid).
  apply isValidMove_true in Hvalid as (Hcell & _); [|done].
  apply targetCell_Some in Hcell as (small0 & Hs0 & Hcell).
  destruct (cellAt_range _ _ _ _ (wf_board_lookup _ _ _ Hwf Hs0) Hcell)
    as [Hr Hc].
  destruct (getNextBoardIndex_wf board' (row position) (cell position)
              Hwf' Hr Hc) as (small & Hsmall & Hnext').
  rewrite Hnext in Hnext'. injection Hnext' as ->.
  assert (board g' = board') as Hb.
  { rewrite Hg'. simpl. destruct won, tied; simpl; repeat case_decide; done. }
  exists g', small. unfold after. simpl. rewrite Hrun. simpl.
  rewrite lookup_insert_eq, Hb. split; [done|]. split; [done|].
  split; [done|]. intros Hrunning.
  assert (currentBoard g'
          = if has_lineb small X || has_lineb small O
               || bool_decide (getEmptyCellIndexes small = [])
            then None else Some (row position * 3 + cell position)) as ->.
  { rewrite Hg' in Hrunning |- *. simpl in *.
    destruct won, tied; simpl in *; repeat case_decide; done. }
  unfold undecided. rewrite !has_line_b.
  destruct (has_lineb small X), (has_lineb small O); simpl;
    try (split; [by intros [[? ?] _]|done]).
  case_bool_decide as He.
  - rewrite getEmptyCellIndexes_nil in He. split; [by intros [_ ?]|done].
  - rewrite getEmptyCellIndexes_not_nil in He. split; [done|].
    intros Hno. exfalso. apply Hno. split; [done|done].
Qed.

Lemma accepted_fresh :
  accepted freshGame "a" (mkPosition 0 1 1) X.
Proof.
  split; [reflexivity|]. split; [discriminate|]. split; reflexivity.
Defined.

Lemma next_board_after_move_witness :
  ∃ g', games (after "a" (MakeMove "R" (mkPosition 0 1 1)) (room freshGame))
          !! "R"%string = Some g'
        ∧ currentBoard g' = Some 4.
Proof.
  destruct (next_board_after_move (room freshGame) "a" "R"
              (mkPosition 0 1 1) freshGame X eq_refl wf_getDefaultBoard
              accepted_fresh)
    as (g' & small & Hg' & _ & Hsmall & Hnext).
  exists g'. split; [exact Hg'|].
  vm_compute in Hg'. injection Hg' as <-.
  vm_compute in Hsmall. injection Hsmall as <-.
  apply Hnext; [reflexivity|]. split.
  - split; rewrite has_line_b; vm_compute; discriminate.
  - exists 0, 0. reflexivity.
Defined.

(** C4.  A make-move request that is turned down (no such room, the
    sender has no seat, it is not the sender's turn, or the validator
    says no) sends one error to the sender and leaves the whole registry,
    hence every field of every game, as it was. *)
Theorem rejected_move_changes_nothing (s : Server) (socket roomCode : string)
    (position : Position) (text : string) :
  rejected s socket roomCode position text →
  handle socket (MakeMove roomCode position) s
  = (Ret (), mkServer (games s) (outbox s ++ [(ToSocket socket, error text)]))
  ∧ games (after socket (MakeMove roomCode position) s) = games s.
Proof.
  intros Hrej. unfold after. simpl.
  by rewrite (make_move_rejected _ _ _ _ _ Hrej).
Qed.

Lemma rejected_move_changes_nothing_witness :
  games (after "b" (MakeMove "R" (mkPosition 0 1 1)) (room freshGame))
  = games (room freshGame).
Proof.
  apply (rejected_move_changes_nothing (room freshGame) "b" "R"
           (mkPosition 0 1 1) "Not your turn!").
  apply (rejected_turn _ _ _ _ freshGame O);
    [reflexivity|reflexivity|discriminate|discriminate].
Defined.

(** C9.  When an accepted move ends the game, because the mover now has a
    line on the winner-board or, failing that, the tie check succeeds,
    the game's [currentPlayer] and [currentBoard] keep the values they
    had before the move (on a win [currentPlayer] is the winner's mark),
    [gameOver] becomes true, and the broadcast snapshot carries those
    values. *)
Theorem ending_move_keeps_turn (s : Server) (socket roomCode : string)
    (position : Position) (g : Game) (mover : Sign) (board' : Board)
    (winBoard : SmallBoard) :
  games s !! roomCode = Some g → wf_board (board g) →
  accepted g socket position mover →
  setBoardCell (board g) (smallBoard position) (row position)
    (cell position) mover = Ret board' →
  getWinnerBoard board' = Ret winBoard →
  checkWin winBoard mover = Ret true
  ∨ (checkWin winBoard mover = Ret false ∧ checkTie winBoard = Ret true) →
  ∃ g',
    handle socket (MakeMove roomCode position) s
    = (Ret (),
       mkServer (<[roomCode := g']> (games s))
         (outbox s ++ [(ToRoom roomCode,
                        move_made roomCode board' (currentPlayer g)
                          (currentBoard g) (winner g') (isTie g') true)]))
    ∧ board g' = board'
    ∧ gameOver g' = true
    ∧ currentPlayer g' = currentPlayer g
    ∧ currentBoard g' = currentBoard g
    ∧ (checkWin winBoard mover = Ret true →
       winner g' = Some mover ∧ currentPlayer g' = mover).
Proof.
  intros Hg Hwf Hacc Hwrite Hwin Hend.
  destruct (make_move_accepted _ _ _ _ _ _ Hg Hwf Hacc)
    as (board1 & winBoard1 & won & tied & next & g' & Hwrite1 & _ & Hwin1
        & _ & Hwon & Htied & _ & Hrun & Hg').
  assert (board1 = board') as -> by congruence.
  assert (winBoard1 = winBoard) as -> by congruence.
  pose proof Hacc as (_ & _ & Hturn & _).
  exists g'. simpl. rewrite Hrun. unfold moveMade.
  destruct Hend as [Hw|[Hw Ht]].
  - assert (won = true) as -> by congruence.
    simpl in Hg'. subst g'. simpl. repeat split; congruence.
  - assert (won = false) as -> by congruence.
    assert (tied = true) as -> by congruence.
    simpl in Hg'. rewrite decide_True in Hg' by (by right).
    subst g'. simpl. repeat split; congruence.
Qed.

Lemma accepted_almostWon :
  accepted almostWonGame "a" (mkPosition 2 0 2) X.
Proof.
  split; [reflexivity|]. split; [discriminate|]. split; reflexivity.
Defined.

Lemma ending_move_keeps_turn_witness :
  ∃ g', games (after "a" (MakeMove "R" (mkPosition 2 0 2))
                 (room almostWonGame)) !! "R"%string = Some g'
        ∧ gameOver g' = true
        ∧ winner g' = Some X
        ∧ currentPlayer g' = X
        ∧ currentBoard g' = Some 2.
Proof.
  destruct (ending_move_keeps_turn (room almostWonGame) "a" "R"
              (mkPosition 2 0 2) almostWonGame X wonBoard
              [[X; X; X]; [Empty; Empty; Empty]; [Empty; Empty; Empty]])
    as (g' & Hrun & _ & Hover & Hturn & Hboard & Hwon);
    [reflexivity| |exact accepted_almostWon|reflexivity|reflexivity
    |left; reflexivity|].
  { split; [reflexivity|]. unfold almostWonBoard.
    repeat (apply Forall_cons; split; [apply wf_small_explicit|]).
    apply Forall_nil_2. }
  exists g'. unfold after. rewrite Hrun. simpl.
  split; [apply lookup_insert_eq|]. split; [exact Hover|].
  destruct (Hwon eq_refl) as [Hw Hp]. auto.
Defined.

(** C5.  Restarting a room whose game is over puts there a game with the
    board a new room starts with, nine all-empty small boards, with [X]
    to move, no active board, [gameOver] false, no winner and no tie (the
    seats are kept).  While the game is not over the request changes
    nothing. *)
Theorem restart_resets (s : Server) (socket roomCode : string) (g : Game) :
  games s !! roomCode = Some g →
  (gameOver g = true →
   ∃ g', games (after socket (RestartGame roomCode) s) !! roomCode = Some g'
         ∧ board g' = getDefaultBoard
         ∧ board g' = replicate 9 (replicate 3 (replicate 3 Empty))
         ∧ currentPlayer g' = X
         ∧ currentBoard g' = None
         ∧ gameOver g' = false
         ∧ winner g' = None
         ∧ isTie g' = false
         ∧ players g' = players g)
  ∧ (gameOver g = false → after socket (RestartGame roomCode) s = s).
Proof.
  intros Hg. unfold after. simpl. split; intros Hover.
  - rewrite (restart_game_over _ _ _ _ Hg Hover). simpl.
    eexists. split; [apply lookup_insert_eq|]. by repeat split.
  - rewrite restart_game_noop by (right; eauto). done.
Qed.

Lemma restart_resets_witness :
  ∃ g', games (after "b" (RestartGame "R") (room wonGame)) !! "R"%string
        = Some g'
        ∧ board g' = getDefaultBoard ∧ currentPlayer g' = X.
Proof.
  destruct (restart_resets (room wonGame) "b" "R" wonGame eq_refl)
    as [Hover _].
  destruct (Hover eq_refl) as (g' & Hg' & Hb & _ & Hp & _).
  exists g'. auto.
Defined.

(** C6.  In every state the server can reach, no game has both a winner
    and a tie, a game with a winner or a tie is over, and a game that is
    over stays over under every request except a restart of its room;
    the one other way the room can hold a running game again is a
    create-room request that draws the same room code, which puts a newly
    created game there. *)
Theorem outcome_invariant (s : Server) :
  reachable s →
  ∀ rc g, games s !! rc = Some g →
    ¬ (winner g ≠ None ∧ isTie g = true)
    ∧ (winner g ≠ None ∨ isTie g = true → gameOver g = true)
    ∧ (gameOver g = true →
       ∀ socket req, req ≠ RestartGame rc →
         ∃ g', games (after socket req s) !! rc = Some g'
               ∧ (gameOver g' = true
                  ∨ (req = CreateRoom rc
                     ∧ g' = mkGame [mkPlayer socket X] getDefaultBoard X
                              None false None false))).
Proof.
  intros Hreach rc g Hg.
  pose proof (reachable_inv s Hreach) as Hinv.
  destruct (Hinv rc g Hg) as (Hwf & Hone & Hover).
  split; [done|]. split; [done|]. intros Hdone socket req Hnr.
  assert (req = CreateRoom rc ∨ req ≠ CreateRoom rc) as [->|Hnc].
  { destruct req as [rc0| | |]; try (by right).
    destruct (decide (rc0 = rc)) as [->|]; [by left|right; congruence]. }
  - eexists. unfold after. simpl. rewrite create_room_run. simpl.
    split; [apply lookup_insert_eq|]. by right.
  - destruct (gameOver_stays s socket req rc g Hinv Hg Hdone Hnr Hnc)
      as (g' & Hg' & Hover'). eauto.
Qed.

Lemma reachable_serve (s : Server) (reqs : list (string * Request)) :
  reachable s → reachable (serve s reqs).
Proof.
  revert s. induction reqs as [|[socket req] reqs IH]; intros s Hs; [done|].
  apply IH. by apply reachable_after.
Defined.

Lemma outcome_invariant_witness :
  ∃ g g', games finished !! "R"%string = Some g
          ∧ gameOver g = true
          ∧ games (after "b" (MakeMove "R" (mkPosition 1 0 0)) finished)
              !! "R"%string = Some g'
          ∧ gameOver g' = true.
Proof.
  assert (∃ g, games finished !! "R"%string = Some g ∧ gameOver g = true)
    as (g & Hg & Hover) by (eexists; split; vm_compute; reflexivity).
  destruct (outcome_invariant finished
              (reachable_serve initial winningPlay reachable_initial)
              "R"%string g Hg) as (_ & _ & Hstay).
  destruct (Hstay Hover "b"%string (MakeMove "R" (mkPosition 1 0 0)))
    as (g' & Hg' & [Hover'|[Hreq _]]); [discriminate| |discriminate].
  exists g, g'. auto.
Defined.

(** * Bounds *)

Lemma isValidMove_in_bounds (smallBoardIndex row col : Z) (gameOver : bool)
    (board : Board) (currentBoard : CurrentBoardIndex)
    (currentPlayer player : Sign) :
  wf_board board →
  0 ≤ smallBoardIndex ≤ 8 → 0 ≤ row ≤ 2 → 0 ≤ col ≤ 2 →
  (∃ small line old,
     lookupZ board smallBoardIndex = Some small
     ∧ lookupZ small row = Some line
     ∧ lookupZ line col = Some old)
  ∧ ∃ valid, isValidMove smallBoardIndex row col gameOver board currentBoard
               currentPlayer player = Ret valid.
Proof.
  intros Hwf Hs Hr Hc.
  destruct (proj2 (lookupZ_is_Some board smallBoardIndex)) as [small Hsmall];
    [destruct Hwf as [-> _]; lia|].
  pose proof (wf_board_lookup _ _ _ Hwf Hsmall) as [Hlen Hall].
  destruct (proj2 (lookupZ_is_Some small row)) as [line Hline]; [lia|].
  assert (length line = 3%nat) as Hl.
  { pose proof Hline as [_ Hi]%lookupZ_Some.
    eapply Forall_lookup_1 in Hall; eauto. }
  destruct (proj2 (lookupZ_is_Some line col)) as [old Hold]; [lia|].
  split; [by exists small, line, old|].
  destruct (canMoveToSmallBoard_wf small) as (ok & Hok & _); [done|].
  eexists. apply isValidMove_Ret. eexists small, _, ok.
  split; [done|]. split; [|split; [done|reflexivity]].
  unfold cellIs. apply index_Ret in Hline. rewrite Hline. simpl.
  by rewrite Hold.
Qed.

Lemma isValidMove_bad_board (smallBoardIndex row col : Z) (gameOver : bool)
    (board : Board) (currentBoard : CurrentBoardIndex)
    (currentPlayer player : Sign) :
  wf_board board → ¬ 0 ≤ smallBoardIndex ≤ 8 →
  isValidMove smallBoardIndex row col gameOver board currentBoard
    currentPlayer player = Fault TypeError.
Proof.
  intros [Hlen _] Hs. unfold isValidMove, index.
  destruct (lookupZ board smallBoardIndex) as [small|] eqn:E; [|done].
  apply lookupZ_lt in E. lia.
Qed.

Lemma isValidMove_bad_row (smallBoardIndex row col : Z) (gameOver : bool)
    (board : Board) (currentBoard : CurrentBoardIndex)
    (currentPlayer player : Sign) :
  wf_board board → 0 ≤ smallBoardIndex ≤ 8 → ¬ 0 ≤ row ≤ 2 →
  isValidMove smallBoardIndex row col gameOver board currentBoard
    currentPlayer player = Fault TypeError.
Proof.
  intros Hwf Hs Hr.
  destruct (proj2 (lookupZ_is_Some board smallBoardIndex)) as [small Hsmall];
    [destruct Hwf as [-> _]; lia|].
  pose proof (wf_board_lookup _ _ _ Hwf Hsmall) as [Hlen Hall].
  unfold isValidMove. apply index_Ret in Hsmall. rewrite Hsmall. simpl.
  unfold cellIs, index.
  destruct (lookupZ small row) as [line|] eqn:E; [|done].
  apply lookupZ_lt in E. lia.
Qed.

Lemma isValidMove_bad_col (smallBoardIndex row col : Z) (gameOver : bool)
    (board : Board) (currentBoard : CurrentBoardIndex)
    (currentPlayer player : Sign) :
  wf_board board → 0 ≤ smallBoardIndex ≤ 8 → 0 ≤ row ≤ 2 → ¬ 0 ≤ col ≤ 2 →
  isValidMove smallBoardIndex row col gameOver board currentBoard
    currentPlayer player = Ret false.
Proof.
  intros Hwf Hs Hr Hc.
  destruct (isValidMove_in_bounds smallBoardIndex row 0 gameOver board
              currentBoard currentPlayer player Hwf Hs Hr ltac:(lia))
    as ((small & line & old & Hsmall & Hline & _) & _).
  pose proof (wf_board_lookup _ _ _ Hwf Hsmall) as Hwfs.
  destruct (canMoveToSmallBoard_wf small Hwfs) as (ok & Hok & _).
  apply isValidMove_Ret. exists small, false, ok.
  split; [done|]. split; [|done].
  unfold cellIs. apply index_Ret in Hline. rewrite Hline. simpl.
  destruct (lookupZ line col) as [c|] eqn:E; [|done].
  apply lookupZ_lt in E. destruct Hwfs as [_ Hall].
  apply index_Ret, lookupZ_Some in Hline as [_ Hi].
  eapply Forall_lookup_1 in Hall; eauto. simpl in Hall. lia.
Qed.

(** Whatever the shape of the board, a move the validator accepted
    writes into a cell that exists: the handler's write neither throws
    nor grows an array. *)
Lemma setBoardCell_after_valid (smallBoardIndex row col : Z)
    (gameOver : bool) (board : Board) (currentBoard : CurrentBoardIndex)
    (currentPlayer player mark : Sign) :
  isValidMove smallBoardIndex row col gameOver board currentBoard
    currentPlayer player = Ret true →
  ∃ board', setBoardCell board smallBoardIndex row col mark = Ret board'.
Proof.
  intros (small & freeCell & validBoard & Hs & Hfree & _ & Hv)%isValidMove_Ret.
  destruct freeCell; [|done].
  apply cellIs_Ret_true, cellAt_Some in Hfree
    as (line & Hr & Hc & Hline & Hcell).
  apply lookup_lt_Some in Hcell.
  unfold setBoardCell. apply index_Ret in Hs. rewrite Hs. simpl.
  assert (setCell small row col mark
          = Ret (<[Z.to_nat row := <[Z.to_nat col := mark]> line]> small))
    as ->; [|by eexists].
  apply setCell_Ret. exists line. split; [by apply lookupZ_Some|].
  split; [lia|done].
Qed.

(** C8.  On a well-formed main board and with [0 ≤ smallBoardIndex ≤ 8]
    and [0 ≤ row, col ≤ 2], the cell [board[smallBoardIndex][row][col]]
    exists, [isValidMove] returns without a fault, and the write of any
    mark into that cell succeeds and keeps the board well-formed.  The
    validator checks no bound itself: a small-board index or a row
    outside the range makes it throw, and a column outside the range
    reads past the row and is answered with [false]. *)
Theorem bounds_make_accesses_safe (smallBoardIndex row col : Z)
    (gameOver : bool) (board : Board) (currentBoard : CurrentBoardIndex)
    (currentPlayer player : Sign) :
  wf_board board →
  (0 ≤ smallBoardIndex ≤ 8 → 0 ≤ row ≤ 2 → 0 ≤ col ≤ 2 →
   (∃ small line old,
      lookupZ board smallBoardIndex = Some small
      ∧ lookupZ small row = Some line
      ∧ lookupZ line col = Some old)
   ∧ (∃ valid, isValidMove smallBoardIndex row col gameOver board
                 currentBoard currentPlayer player = Ret valid)
   ∧ (∀ mark, ∃ board',
        setBoardCell board smallBoardIndex row col mark = Ret board'
        ∧ wf_board board'))
  ∧ (¬ 0 ≤ smallBoardIndex ≤ 8 →
     isValidMove smallBoardIndex row col gameOver board currentBoard
       currentPlayer player = Fault TypeError)
  ∧ (0 ≤ smallBoardIndex ≤ 8 → ¬ 0 ≤ row ≤ 2 →
     isValidMove smallBoardIndex row col gameOver board currentBoard
       currentPlayer player = Fault TypeError)
  ∧ (0 ≤ smallBoardIndex ≤ 8 → 0 ≤ row ≤ 2 → ¬ 0 ≤ col ≤ 2 →
     isValidMove smallBoardIndex row col gameOver board currentBoard
       currentPlayer player = Ret false).
Proof.
  intros Hwf. split; [|split; [|split]].
  - intros Hs Hr Hc.
    destruct (isValidMove_in_bounds smallBoardIndex row col gameOver board
                currentBoard currentPlayer player Hwf Hs Hr Hc)
      as [(small & line & old & Hsmall & Hline & Hold) Hret].
    split; [by exists small, line, old|]. split; [done|]. intros mark.
    destruct (setBoardCell_wf board smallBoardIndex row col old mark Hwf)
      as (? & small' & _ & _ & Hwrite & Hwf').
    { apply targetCell_Some. exists small. split; [done|].
      unfold cellAt. by rewrite Hline. }
    eauto.
  - by apply isValidMove_bad_board.
  - by apply isValidMove_bad_row.
  - by apply isValidMove_bad_col.
Qed.

Lemma bounds_make_accesses_safe_witness :
  (∃ valid, isValidMove 8 2 2 false getDefaultBoard None X X = Ret valid)
  ∧ isValidMove 9 0 0 false getDefaultBoard None X X = Fault TypeError.
Proof.
  split.
  - destruct (bounds_make_accesses_safe 8 2 2 false getDefaultBoard None X X
                wf_getDefaultBoard) as [Hsafe _].
    destruct Hsafe as (_ & Hret & _); [lia..|]. exact Hret.
  - destruct (bounds_make_accesses_safe 9 0 0 false getDefaultBoard None X X
                wf_getDefaultBoard) as (_ & Hbad & _).
    apply Hbad. lia.
Defined.

(** C10.  A restart request for a room code that has no game, or for a
    room whose game is not over, returns with the server exactly as it
    was: no game changes and nothing is sent, to the requester or to the
    room. *)
Theorem restart_silent (s : Server) (socket roomCode : string) :
  games s !! roomCode = None
  ∨ (∃ g, games s !! roomCode = Some g ∧ gameOver g = false) →
  handle socket (RestartGame roomCode) s = (Ret (), s)
  ∧ games (after socket (RestartGame roomCode) s) = games s
  ∧ outbox (after socket (RestartGame roomCode) s) = outbox s.
Proof.
  intros Hno. unfold after. simpl. by rewrite restart_game_noop.
Qed.

Lemma restart_silent_witness :
  handle "a" (RestartGame "R") (room freshGame) = (Ret (), room freshGame)
  ∧ handle "a" (RestartGame "Q") (room freshGame) = (Ret (), room freshGame).
Proof.
  split.
  - apply (restart_silent (room freshGame) "a" "R").
    right. exists freshGame. split; reflexivity.
  - apply (restart_silent (room freshGame) "a" "Q"). left. reflexivity.
Defined.
